(** * Reference random generators: MT19937-64 and xoshiro256**

    A shallow embedding of [mt19937-64.c] and [xoshiro256starstar.c].
    Unsigned 64-bit words are integers of [Z] with the wrap-around of every
    arithmetic operation and left shift written out; the fixed-size arrays
    [mt[NN]] and [s[4]] are lists read and written by index; a function that
    mutates the structure it is handed returns the structure after the
    call. *)

From Stdlib Require Import ZArith Lia Bool.
From Stdlib Require Import Floats.SpecFloat.
From stdpp Require Import base list.

Local Open Scope Z_scope.

(** ** Unsigned 64-bit words *)

Module Word64.

Definition modulus : Z := 2 ^ 64.

(** Reduction of a mathematical result to [unsigned long long]. *)
Definition wrap64 (x : Z) : Z := x mod modulus.

Definition add64 (x y : Z) : Z := wrap64 (x + y).
Definition sub64 (x y : Z) : Z := wrap64 (x - y).
Definition mul64 (x y : Z) : Z := wrap64 (x * y).
Definition shl64 (x k : Z) : Z := wrap64 (Z.shiftl x k).
Definition shr64 (x k : Z) : Z := Z.shiftr x k.

(** The values an [unsigned long long] can hold. *)
Definition is_u64 (x : Z) : Prop := 0 <= x < modulus.

End Word64.

Import Word64.

(** ** Arrays of words, indexed as in C

    A read is [a[i]]; a write is [a[i] = v].  Every index the two programs
    use lies inside its array.  Outside it C leaves the behaviour
    undefined; the model then reads a fixed word and a write changes
    nothing, and no theorem below depends on that. *)

Module Arr.

Definition get (a : list Z) (i : Z) : Z := a !!! Z.to_nat i.
Definition set (a : list Z) (i : Z) (v : Z) : list Z := <[Z.to_nat i := v]> a.

End Arr.

(** ** xoshiro256** 1.0 *)

Module Xoshiro.

(** [typedef struct { uint64_t s[4]; } xoshiro_state;] *)
Record xoshiro_state : Type := XState { s : list Z }.

(** [(x << k) | (x >> (64 - k))] on [uint64_t]. *)
Definition rotl (x : Z) (k : Z) : Z :=
  Z.lor (shl64 x k) (shr64 x (64 - k)).

Definition set_s (state : xoshiro_state) (i v : Z) : xoshiro_state :=
  XState (Arr.set (s state) i v).

Definition s_at (state : xoshiro_state) (i : Z) : Z := Arr.get (s state) i.

(** [xoshiro_next]: the value returned and the state after the call. *)
Definition xoshiro_next (state : xoshiro_state) : Z * xoshiro_state :=
  let result_starstar := mul64 (rotl (mul64 (s_at state 1) 5) 7) 9 in
  let t := shl64 (s_at state 1) 17 in
  let state := set_s state 2 (Z.lxor (s_at state 2) (s_at state 0)) in
  let state := set_s state 3 (Z.lxor (s_at state 3) (s_at state 1)) in
  let state := set_s state 1 (Z.lxor (s_at state 1) (s_at state 2)) in
  let state := set_s state 0 (Z.lxor (s_at state 0) (s_at state 3)) in
  let state := set_s state 2 (Z.lxor (s_at state 2) t) in
  let state := set_s state 3 (rotl (s_at state 3) 45) in
  (result_starstar, state).

(** A state as the C type admits it: four words, each an [uint64_t]. *)
Definition wf (state : xoshiro_state) : Prop :=
  length (s state) = 4%nat /\ Forall is_u64 (s state).

Definition all_zero (state : xoshiro_state) : Prop :=
  s_at state 0 = 0 /\ s_at state 1 = 0 /\ s_at state 2 = 0 /\ s_at state 3 = 0.

Definition zero_state : xoshiro_state := XState [0; 0; 0; 0].

(** [n] successive calls: the values drawn, first call first, and the state
    left behind. *)
Fixpoint draws (n : nat) (state : xoshiro_state) : list Z * xoshiro_state :=
  match n with
  | O => ([], state)
  | S n' =>
      let '(r, state') := xoshiro_next state in
      let '(rs, state'') := draws n' state' in
      (r :: rs, state'')
  end.

End Xoshiro.

(** ** MT19937-64 *)

Module MT.

Definition NN : Z := 312.
Definition MM : Z := 156.
Definition MATRIX_A : Z := 0xB5026F5AA96619E9.
(** Most significant 33 bits *)
Definition UM : Z := 0xFFFFFFFF80000000.
(** Least significant 31 bits *)
Definition LM : Z := 0x7FFFFFFF.

(** [struct mt19937_64 { unsigned long long mt[NN]; size_t mti; };] with
    [size_t] 64 bits wide. *)
Record mt19937_64 : Type := Context { mt : list Z; mti : Z }.

Definition set_mt (context : mt19937_64) (i v : Z) : mt19937_64 :=
  Context (Arr.set (mt context) i v) (mti context).

Definition set_mti (context : mt19937_64) (v : Z) : mt19937_64 :=
  Context (mt context) v.

Definition mt_at (context : mt19937_64) (i : Z) : Z := Arr.get (mt context) i.

(** A structure as the C type admits it. *)
Definition wf (context : mt19937_64) : Prop := length (mt context) = 312%nat.

(** *** [init_genrand64] *)

(** One turn of [for (mti = 1; mti < NN; mti++)]: the body, then [mti++]. *)
Definition init_body (context : mt19937_64) : mt19937_64 :=
  let context :=
    set_mt context (mti context)
      (add64 (mul64 6364136223846793005
                (Z.lxor (mt_at context (mti context - 1))
                        (shr64 (mt_at context (mti context - 1)) 62)))
             (mti context)) in
  set_mti context (add64 (mti context) 1).

(** The loop, guarded by [mti < NN]; [fuel] bounds the number of turns. *)
Fixpoint init_loop (fuel : nat) (context : mt19937_64) : mt19937_64 :=
  match fuel with
  | O => context
  | S fuel' =>
      if mti context <? NN then init_loop fuel' (init_body context)
      else context
  end.

Definition init_genrand64 (context : mt19937_64) (seed : Z) : mt19937_64 :=
  let context := set_mt context 0 seed in
  init_loop (Z.to_nat NN) (set_mti context 1).

(** *** [init_by_array64] *)

(** The local variables [i] and [j] travel with the structure. *)
Definition cursor : Type := mt19937_64 * Z * Z.

(** Body of the first loop, [for (; k; k--)]. *)
Definition pass1_body (init_key : list Z) (key_length : Z) (st : cursor)
  : cursor :=
  let '(context, i, j) := st in
  let context :=
    set_mt context i
      (add64
         (add64
            (Z.lxor (mt_at context i)
               (mul64 (Z.lxor (mt_at context (i - 1))
                              (shr64 (mt_at context (i - 1)) 62))
                      3935559000370003845))
            (Arr.get init_key j))
         j) in
  let i := add64 i 1 in
  let j := add64 j 1 in
  let '(context, i) :=
    if NN <=? i then (set_mt context 0 (mt_at context (NN - 1)), 1)
    else (context, i) in
  let j := if key_length <=? j then 0 else j in
  (context, i, j).

Definition cur_context (st : cursor) : mt19937_64 := fst (fst st).
Definition cur_i (st : cursor) : Z := snd (fst st).
Definition cur_j (st : cursor) : Z := snd st.

(** [k] turns of the first loop. *)
Fixpoint pass1 (k : nat) (init_key : list Z) (key_length : Z) (st : cursor)
  : cursor :=
  match k with
  | O => st
  | S k' => pass1 k' init_key key_length (pass1_body init_key key_length st)
  end.

(** Body of the second loop, [for (k = NN-1; k; k--)]. *)
Definition pass2_body (st : mt19937_64 * Z) : mt19937_64 * Z :=
  let '(context, i) := st in
  let context :=
    set_mt context i
      (sub64
         (Z.lxor (mt_at context i)
            (mul64 (Z.lxor (mt_at context (i - 1))
                           (shr64 (mt_at context (i - 1)) 62))
                   2862933555777941757))
         i) in
  let i := add64 i 1 in
  if NN <=? i then (set_mt context 0 (mt_at context (NN - 1)), 1)
  else (context, i).

Fixpoint pass2 (k : nat) (st : mt19937_64 * Z) : mt19937_64 * Z :=
  match k with
  | O => st
  | S k' => pass2 k' (pass2_body st)
  end.

(** [k = (NN > key_length ? NN : key_length)] *)
Definition pass1_count (key_length : Z) : Z :=
  if NN >? key_length then NN else key_length.

Definition pass2_count : Z := NN - 1.

(** The structure and the cursors when the first loop ends. *)
Definition after_pass1 (context : mt19937_64) (init_key : list Z)
    (key_length : Z) : cursor :=
  pass1 (Z.to_nat (pass1_count key_length)) init_key key_length
    (init_genrand64 context 19650218, 1, 0).

(** The structure and [i] when the second loop ends. *)
Definition after_pass2 (context : mt19937_64) (init_key : list Z)
    (key_length : Z) : mt19937_64 * Z :=
  let '(context, i, _) := after_pass1 context init_key key_length in
  pass2 (Z.to_nat pass2_count) (context, i).

Definition init_by_array64 (context : mt19937_64) (init_key : list Z)
    (key_length : Z) : mt19937_64 :=
  let '(context, _) := after_pass2 context init_key key_length in
  set_mt context 0 (shl64 1 63).

(** *** [genrand64_int64] *)

(** One turn of [for (i = 0, j = mid; i != mid - 1; i++, j++)]. *)
Definition untwist_body (mid : Z) (st : cursor) : cursor :=
  let '(context, i, j) := st in
  let x := Z.lor (Z.land (mt_at context i) UM)
                 (Z.land (mt_at context (i + 1)) LM) in
  let context :=
    set_mt context i
      (Z.lxor (Z.lxor (mt_at context (i + mid)) (shr64 x 1))
              (mul64 (Z.land (mt_at context (i + 1)) 1) MATRIX_A)) in
  let y := Z.lor (Z.land (mt_at context j) UM)
                 (Z.land (mt_at context (j + 1)) LM) in
  let context :=
    set_mt context j
      (Z.lxor (Z.lxor (mt_at context (j - mid)) (shr64 y 1))
              (mul64 (Z.land (mt_at context (j + 1)) 1) MATRIX_A)) in
  (context, add64 i 1, add64 j 1).

(** The loop, guarded by [i != mid - 1]; [fuel] bounds the number of
    turns. *)
Fixpoint untwist_loop (fuel : nat) (mid : Z) (st : cursor) : cursor :=
  match fuel with
  | O => st
  | S fuel' =>
      let '(_, i, _) := st in
      if negb (i =? mid - 1) then untwist_loop fuel' mid (untwist_body mid st)
      else st
  end.

(** The block under [if (context->mti >= NN)]. *)
Definition regenerate (context : mt19937_64) : mt19937_64 :=
  let mid := NN / 2 in
  let stateMid := mt_at context mid in
  let '(context, _, _) :=
    untwist_loop (Z.to_nat mid) mid (context, 0, mid) in
  let x := Z.lor (Z.land (mt_at context (mid - 1)) UM) (Z.land stateMid LM) in
  let context :=
    set_mt context (mid - 1)
      (Z.lxor (Z.lxor (mt_at context (NN - 1)) (shr64 x 1))
              (mul64 (Z.land stateMid 1) MATRIX_A)) in
  let y := Z.lor (Z.land (mt_at context (NN - 1)) UM)
                 (Z.land (mt_at context 0) LM) in
  let context :=
    set_mt context (NN - 1)
      (Z.lxor (Z.lxor (mt_at context (mid - 1)) (shr64 y 1))
              (mul64 (Z.land (mt_at context 0) 1) MATRIX_A)) in
  set_mti context 0.

(** The value returned and the structure after the call. *)
Definition genrand64_int64 (context : mt19937_64) : Z * mt19937_64 :=
  let context := if NN <=? mti context then regenerate context else context in
  let result := mt_at context (mti context) in
  let context := set_mti context (add64 (mti context) 1) in
  let result :=
    Z.lxor result (Z.land (shr64 result 29) 0x5555555555555555) in
  let result :=
    Z.lxor result (Z.land (shl64 result 17) 0x71D67FFFEDA60000) in
  let result :=
    Z.lxor result (Z.land (shl64 result 37) 0xFFF7EEE000000000) in
  let result := Z.lxor result (shr64 result 43) in
  (result, context).

(** The four tempering assignments of [genrand64_int64], as a function of
    the word read from the array. *)
Definition tempered (result : Z) : Z :=
  let result :=
    Z.lxor result (Z.land (shr64 result 29) 0x5555555555555555) in
  let result :=
    Z.lxor result (Z.land (shl64 result 17) 0x71D67FFFEDA60000) in
  let result :=
    Z.lxor result (Z.land (shl64 result 37) 0xFFF7EEE000000000) in
  Z.lxor result (shr64 result 43).

(** *** [genrand64_real1], [genrand64_real2], [genrand64_real3]

    A [double] is an IEEE 754 binary64 number: 53 bits of precision,
    exponents below 1024, every operation rounded to nearest, ties to
    even.  [dbl m e] is the double nearest to [m * 2^e]; the literals
    [1.0], [0.5], [9007199254740991.0], [9007199254740992.0] and
    [4503599627370496.0] are of that form with nothing to round. *)

Definition dbl (m e : Z) : spec_float := binary_normalize 53 1024 m e false.

(** Conversion of an [unsigned long long] operand to [double]. *)
Definition of_u64 (n : Z) : spec_float := dbl n 0.

Definition dmul : spec_float -> spec_float -> spec_float := SFmul 53 1024.
Definition ddiv : spec_float -> spec_float -> spec_float := SFdiv 53 1024.
Definition dadd : spec_float -> spec_float -> spec_float := SFadd 53 1024.

Definition genrand64_real1 (context : mt19937_64)
  : spec_float * mt19937_64 :=
  let '(r, context) := genrand64_int64 context in
  (dmul (of_u64 (shr64 r 11)) (ddiv (dbl 1 0) (dbl 9007199254740991 0)),
   context).

Definition genrand64_real2 (context : mt19937_64)
  : spec_float * mt19937_64 :=
  let '(r, context) := genrand64_int64 context in
  (dmul (of_u64 (shr64 r 11)) (ddiv (dbl 1 0) (dbl 9007199254740992 0)),
   context).

Definition genrand64_real3 (context : mt19937_64)
  : spec_float * mt19937_64 :=
  let '(r, context) := genrand64_int64 context in
  (dmul (dadd (of_u64 (shr64 r 12)) (dbl 1 (-1)))
        (ddiv (dbl 1 0) (dbl 4503599627370496 0)),
   context).

(** Every word of the array is an [unsigned long long]. *)
Definition words_u64 (context : mt19937_64) : Prop :=
  Forall is_u64 (mt context).

Definition is_u64b (x : Z) : bool := (0 <=? x) && (x <? modulus).

(** *** The textbook recurrence

    Written after the specification, not after the code: a single pass over
    [k = 0 .. 311], in place, every neighbour index reduced modulo 312. *)

Definition textbook_word (words : list Z) (k : Z) : Z :=
  Z.lxor
    (Z.lxor (Arr.get words ((k + 156) mod 312))
       (Z.shiftr
          (Z.lor (Z.land (Arr.get words k) 0xFFFFFFFF80000000)
                 (Z.land (Arr.get words ((k + 1) mod 312)) 0x7FFFFFFF))
          1))
    (if Z.testbit (Arr.get words ((k + 1) mod 312)) 0
     then 0xB5026F5AA96619E9 else 0).

(** Positions [k], [k+1], ..., [k+n-1] in turn. *)
Fixpoint textbook_pass (n : nat) (k : Z) (words : list Z) : list Z :=
  match n with
  | O => words
  | S n' => textbook_pass n' (k + 1) (Arr.set words k (textbook_word words k))
  end.

Definition textbook_untwist (words : list Z) : list Z :=
  textbook_pass 312 0 words.

(** *** The regenerated array, word by word

    [twisted src cur nxt] is the right-hand side of each of the four
    assignments of the regeneration code; [regenerated words k] names the
    word that ends at position [k] when the code starts from [words]. *)

Definition twisted (src cur nxt : Z) : Z :=
  Z.lxor (Z.lxor src (shr64 (Z.lor (Z.land cur UM) (Z.land nxt LM)) 1))
         (mul64 (Z.land nxt 1) MATRIX_A).

Definition regenerated_low (words : list Z) (k : Z) : Z :=
  twisted (Arr.get words (k + 156)) (Arr.get words k) (Arr.get words (k + 1)).

Definition regenerated_high (words : list Z) (k : Z) : Z :=
  twisted (regenerated_low words (k - 156)) (Arr.get words k)
          (Arr.get words (k + 1)).

Definition regenerated_last (words : list Z) : Z :=
  twisted (regenerated_low words 155) (Arr.get words 311)
          (regenerated_low words 0).

Definition regenerated (words : list Z) (k : Z) : Z :=
  if k <? 156 then regenerated_low words k
  else if k <? 311 then regenerated_high words k
  else regenerated_last words.

(** What the array holds after [n] turns of the regeneration loop started
    on [words]: the positions below [n] and those from 156 to below
    [156 + n] are done, the others untouched. *)
Definition partly (words : list Z) (n : Z) (k : Z) : Z :=
  if k <? n then regenerated_low words k
  else if (156 <=? k) && (k <? 156 + n) then regenerated_high words k
  else Arr.get words k.

Definition loop_inv (words : list Z) (m : Z) (c : mt19937_64) (n : Z) : Prop :=
  MT.wf c /\ mti c = m /\
  forall k, 0 <= k < 312 -> mt_at c k = partly words n k.

(** A structure with every word cleared, as [calloc] would hand it out. *)
Definition blank : mt19937_64 := Context (replicate 312 0) 0.

(** The key of the published reference output, [mt19937-64.out.txt]. *)
Definition reference_key : list Z := [0x12345; 0x23456; 0x34567; 0x45678].

(** A generator seeded with 5489 from which one value has been drawn. *)
Definition drawn_once : mt19937_64 :=
  snd (genrand64_int64 (init_genrand64 blank 5489)).

End MT.

(** ** MT19937-64: the other entry points, and calls in sequence *)

Module MTDerived.

Import MT.

(** An [unsigned long long] read as a [long long]. *)
Definition to_i64 (x : Z) : Z := if x <? 2 ^ 63 then x else x - 2 ^ 64.

(** [init_genrand64_fromtime]: [context] stands for the local structure,
    not yet initialised, and [now] for what [mach_absolute_time()]
    returns. *)
Definition init_genrand64_fromtime (context : mt19937_64) (now : Z)
  : mt19937_64 :=
  init_genrand64 context now.

(** [genrand64_int63] *)
Definition genrand64_int63 (context : mt19937_64) : Z * mt19937_64 :=
  let '(r, context) := genrand64_int64 context in
  (to_i64 (shr64 r 1), context).

(** The structure after [n] calls of [genrand64_int64], and the value the
    next call returns. *)
Definition after_draws (n : nat) (context : mt19937_64) : mt19937_64 :=
  Nat.iter n (fun c => snd (genrand64_int64 c)) context.

Definition nth_draw (n : nat) (context : mt19937_64) : Z :=
  fst (genrand64_int64 (after_draws n context)).

(** The right-hand side of the assignment in [init_genrand64], from the
    word before and the position. *)
Definition seed_next (prev i : Z) : Z :=
  add64 (mul64 6364136223846793005 (Z.lxor prev (shr64 prev 62))) i.

End MTDerived.

Import Xoshiro MT.

(** * Words and arrays *)

Section WordFacts.

Lemma wrap64_range (x : Z) : is_u64 (wrap64 x).
Proof. unfold is_u64, wrap64, modulus. apply Z.mod_pos_bound. lia. Qed.

Lemma wrap64_small (x : Z) : is_u64 x -> wrap64 x = x.
Proof. unfold is_u64, wrap64. intros H. apply Z.mod_small. exact H. Qed.

Lemma wrap64_testbit (x n : Z) :
  0 <= n -> Z.testbit (wrap64 x) n = (n <? 64) && Z.testbit x n.
Proof.
  intros Hn. unfold wrap64, modulus.
  destruct (Z.ltb_spec n 64) as [Hlt | Hge].
  - rewrite Z.mod_pow2_bits_low by lia. reflexivity.
  - rewrite Z.mod_pow2_bits_high by lia. reflexivity.
Qed.

Lemma u64_testbit_high (x n : Z) :
  is_u64 x -> 64 <= n -> Z.testbit x n = false.
Proof.
  intros Hx Hn. rewrite <- (wrap64_small x Hx).
  rewrite wrap64_testbit by lia.
  destruct (Z.ltb_spec n 64); [lia | reflexivity].
Qed.

Lemma u64_bits (x : Z) :
  is_u64 x <-> 0 <= x /\ forall n, 64 <= n -> Z.testbit x n = false.
Proof.
  split.
  - intros Hx. split; [apply Hx |]. intros n Hn.
    apply u64_testbit_high; assumption.
  - intros [H0 Hhigh].
    assert (E : wrap64 x = x).
    { apply Z.bits_inj'. intros n Hn. rewrite wrap64_testbit by lia.
      destruct (Z.ltb_spec n 64); [reflexivity |].
      rewrite Hhigh by lia. reflexivity. }
    rewrite <- E. apply wrap64_range.
Qed.

Lemma land_u64 (x y : Z) : is_u64 x -> 0 <= y -> is_u64 (Z.land x y).
Proof.
  rewrite !u64_bits. intros [H0 Hh] Hy. split.
  - apply Z.land_nonneg. left. exact H0.
  - intros n Hn. rewrite Z.land_spec, Hh by lia. reflexivity.
Qed.

Lemma lor_u64 (x y : Z) : is_u64 x -> is_u64 y -> is_u64 (Z.lor x y).
Proof.
  rewrite !u64_bits. intros [Hx0 Hxh] [Hy0 Hyh]. split.
  - apply Z.lor_nonneg. split; assumption.
  - intros n Hn. rewrite Z.lor_spec, Hxh, Hyh by lia. reflexivity.
Qed.

Lemma lxor_u64 (x y : Z) : is_u64 x -> is_u64 y -> is_u64 (Z.lxor x y).
Proof.
  rewrite !u64_bits. intros [Hx0 Hxh] [Hy0 Hyh]. split.
  - apply Z.lxor_nonneg. split; intros _; assumption.
  - intros n Hn. rewrite Z.lxor_spec, Hxh, Hyh by lia. reflexivity.
Qed.

Lemma shr64_u64 (x k : Z) : is_u64 x -> 0 <= k -> is_u64 (shr64 x k).
Proof.
  rewrite !u64_bits. unfold shr64. intros [Hx0 Hxh] Hk. split.
  - apply Z.shiftr_nonneg. exact Hx0.
  - intros n Hn. rewrite Z.shiftr_spec by lia. apply Hxh. lia.
Qed.

Lemma shr64_bound (x k : Z) :
  is_u64 x -> 0 <= k <= 64 -> 0 <= shr64 x k < 2 ^ (64 - k).
Proof.
  unfold is_u64, modulus, shr64. intros Hx Hk.
  rewrite Z.shiftr_div_pow2 by lia.
  assert (Hp : 0 < 2 ^ k) by (apply Z.pow_pos_nonneg; lia).
  split; [apply Z.div_pos; lia |].
  apply Z.div_lt_upper_bound; [exact Hp |].
  rewrite <- Z.pow_add_r by lia. replace (k + (64 - k)) with 64 by lia. lia.
Qed.

End WordFacts.

Section ArrFacts.

Lemma length_set (a : list Z) (i v : Z) : length (Arr.set a i v) = length a.
Proof. unfold Arr.set. apply length_insert. Qed.

Lemma get_set_eq (a : list Z) (i v : Z) :
  0 <= i < Z.of_nat (length a) -> Arr.get (Arr.set a i v) i = v.
Proof.
  intros Hi. unfold Arr.get, Arr.set.
  apply list_lookup_total_insert_eq. lia.
Qed.

Lemma get_set_ne (a : list Z) (i j v : Z) :
  0 <= i -> 0 <= j -> i <> j -> Arr.get (Arr.set a i v) j = Arr.get a j.
Proof.
  intros Hi Hj Hne. unfold Arr.get, Arr.set.
  apply list_lookup_total_insert_ne. lia.
Qed.

(** Two arrays of one length that read alike everywhere are one array. *)
Lemma arr_ext (n : nat) (a b : list Z) :
  length a = n -> length b = n ->
  (forall k, 0 <= k < Z.of_nat n -> Arr.get a k = Arr.get b k) -> a = b.
Proof.
  intros Ha Hb Hget. apply (list_eq_same_length a b n); [congruence | congruence |].
  intros i x y Hi Hx Hy.
  specialize (Hget (Z.of_nat i)). unfold Arr.get in Hget.
  rewrite Nat2Z.id in Hget.
  rewrite (list_lookup_total_correct a i x Hx) in Hget.
  rewrite (list_lookup_total_correct b i y Hy) in Hget.
  apply Hget. lia.
Qed.

End ArrFacts.

(** * xoshiro256** *)

Section RotlFacts.

Lemma rotl_testbit (x k n : Z) :
  0 <= n ->
  Z.testbit (rotl x k) n
  = ((n <? 64) && Z.testbit x (n - k)) || Z.testbit x (n + (64 - k)).
Proof.
  intros Hn. unfold rotl, shl64, shr64.
  rewrite Z.lor_spec, wrap64_testbit by lia.
  rewrite Z.shiftl_spec, Z.shiftr_spec by lia. reflexivity.
Qed.

End RotlFacts.

Section XoshiroFacts.

Lemma rotl_unrotl (x k : Z) :
  is_u64 x -> 0 < k < 64 -> rotl (rotl x k) (64 - k) = x.
Proof.
  intros Hx Hk. apply Z.bits_inj'. intros n Hn.
  rewrite rotl_testbit by lia.
  destruct (Z.ltb_spec n 64) as [Hlt | Hge]; simpl.
  - destruct (Z.lt_ge_cases n (64 - k)) as [Hlow | Hhigh].
    + rewrite (Z.testbit_neg_r _ (n - (64 - k))) by lia. simpl.
      rewrite rotl_testbit by lia.
      replace (n + (64 - (64 - k)) - k) with n by lia.
      rewrite (u64_testbit_high x (n + (64 - (64 - k)) + (64 - k))) by (trivial; lia).
      destruct (Z.ltb_spec (n + (64 - (64 - k))) 64); [| lia].
      simpl. apply orb_false_r.
    + rewrite (rotl_testbit x k (n - (64 - k))) by lia.
      rewrite (Z.testbit_neg_r x (n - (64 - k) - k)) by lia.
      rewrite andb_false_r. simpl.
      replace (n - (64 - k) + (64 - k)) with n by lia.
      rewrite rotl_testbit by lia.
      destruct (Z.ltb_spec (n + (64 - (64 - k))) 64); [lia |]. simpl.
      rewrite (u64_testbit_high x (n + (64 - (64 - k)) + (64 - k))) by (trivial; lia).
      apply orb_false_r.
  - rewrite rotl_testbit by lia.
    destruct (Z.ltb_spec (n + (64 - (64 - k))) 64); [lia |]. simpl.
    rewrite !u64_testbit_high by (trivial; lia). reflexivity.
Qed.

(** C8: rotating a 64-bit word left by [k] and then by [64 - k] gives the
    word back, for every [k] strictly between 0 and 64. *)
Theorem rotl_rotl_inverse (x k : Z) :
  is_u64 x -> 0 < k < 64 -> rotl (rotl x k) (64 - k) = x.
Proof. exact (rotl_unrotl x k). Qed.

Lemma rotl_rotl_inverse_witness :
  is_u64 0x0123456789ABCDEF /\ 0 < 7 < 64 /\
  rotl (rotl 0x0123456789ABCDEF 7) (64 - 7) = 0x0123456789ABCDEF.
Proof.
  assert (Hx : is_u64 0x0123456789ABCDEF) by (unfold is_u64, modulus; lia).
  assert (Hk : 0 < 7 < 64) by lia.
  split; [exact Hx | split; [exact Hk |]].
  exact (rotl_rotl_inverse 0x0123456789ABCDEF 7 Hx Hk).
Defined.

Lemma four_words (state : xoshiro_state) :
  length (s state) = 4%nat ->
  state = XState [s_at state 0; s_at state 1; s_at state 2; s_at state 3].
Proof.
  destruct state as [[| a [| b [| c [| d [| e l]]]]]]; simpl; intros H;
    try discriminate H.
  reflexivity.
Qed.

(** The call in closed form, over the four words found. *)
Lemma xoshiro_next_closed (state : xoshiro_state) :
  length (s state) = 4%nat ->
  xoshiro_next state
  = (mul64 (rotl (mul64 (s_at state 1) 5) 7) 9,
     XState
       [Z.lxor (s_at state 0) (Z.lxor (s_at state 3) (s_at state 1));
        Z.lxor (s_at state 1) (Z.lxor (s_at state 2) (s_at state 0));
        Z.lxor (Z.lxor (s_at state 2) (s_at state 0)) (shl64 (s_at state 1) 17);
        rotl (Z.lxor (s_at state 3) (s_at state 1)) 45]).
Proof.
  intros Hlen. rewrite (four_words state Hlen). clear Hlen.
  generalize (s_at state 0) (s_at state 1) (s_at state 2) (s_at state 3).
  intros a b c d. reflexivity.
Qed.

(** C4: [xoshiro_next] returns [rotl(s[1] * 5, 7) * 9] of the word [s[1]] it
    finds, both products reduced modulo 2^64, and leaves the four words
    obtained by [t = s[1] << 17], then [s[2] ^= s[0]], [s[3] ^= s[1]],
    [s[1] ^= s[2]], [s[0] ^= s[3]] in this order, each reading the words
    already updated, then [s[2] ^= t], then [s[3] = rotl(s[3], 45)]. *)
Theorem xoshiro_next_spec (state : xoshiro_state) :
  length (s state) = 4%nat ->
  let s0 := s_at state 0 in
  let s1 := s_at state 1 in
  let s2 := s_at state 2 in
  let s3 := s_at state 3 in
  let result := (rotl ((s1 * 5) mod 2 ^ 64) 7 * 9) mod 2 ^ 64 in
  let t := Z.shiftl s1 17 mod 2 ^ 64 in
  let s2a := Z.lxor s2 s0 in
  let s3a := Z.lxor s3 s1 in
  let s1a := Z.lxor s1 s2a in
  let s0a := Z.lxor s0 s3a in
  let s2b := Z.lxor s2a t in
  let s3b := rotl s3a 45 in
  xoshiro_next state = (result, XState [s0a; s1a; s2b; s3b]).
Proof.
  intros Hlen. cbv zeta. rewrite (xoshiro_next_closed state Hlen).
  reflexivity.
Qed.

Lemma xoshiro_next_spec_witness :
  length (s (XState [1; 2; 3; 4])) = 4%nat /\
  xoshiro_next (XState [1; 2; 3; 4])
  = (11520, XState [7; 0; 262146; 211106232532992]).
Proof.
  assert (Hlen : length (s (XState [1; 2; 3; 4])) = 4%nat) by reflexivity.
  split; [exact Hlen |].
  exact (xoshiro_next_spec (XState [1; 2; 3; 4]) Hlen).
Defined.

Lemma all_zero_is_zero_state (state : xoshiro_state) :
  length (s state) = 4%nat -> all_zero state -> state = zero_state.
Proof.
  intros Hlen (H0 & H1 & H2 & H3).
  rewrite (four_words state Hlen), H0, H1, H2, H3. reflexivity.
Qed.

Lemma draws_zero_state (n : nat) :
  draws n zero_state = (replicate n 0, zero_state).
Proof.
  induction n as [| n IH]; [reflexivity |].
  change (draws (S n) zero_state)
    with (let '(rs, st) := draws n zero_state in (0 :: rs, st)).
  rewrite IH. reflexivity.
Qed.

(** C7: on a state whose four words are all zero, [xoshiro_next] returns 0
    and leaves the state as it was, so any number of successive calls
    returns zeros only and the state stays all zero. *)
Theorem xoshiro_zero_fixed_point (state : xoshiro_state) :
  length (s state) = 4%nat -> all_zero state ->
  xoshiro_next state = (0, state) /\
  forall n : nat, draws n state = (replicate n 0, state).
Proof.
  intros Hlen Hz. rewrite (all_zero_is_zero_state state Hlen Hz).
  split; [reflexivity | apply draws_zero_state].
Qed.

Lemma xoshiro_zero_fixed_point_witness :
  length (s zero_state) = 4%nat /\ all_zero zero_state /\
  xoshiro_next zero_state = (0, zero_state) /\
  forall n : nat, draws n zero_state = (replicate n 0, zero_state).
Proof.
  assert (Hlen : length (s zero_state) = 4%nat) by reflexivity.
  assert (Hz : all_zero zero_state) by (repeat split; reflexivity).
  split; [exact Hlen | split; [exact Hz |]].
  exact (xoshiro_zero_fixed_point zero_state Hlen Hz).
Defined.

(** A word that equals itself shifted left by 17 is zero. *)
Lemma shl17_fixed_zero (x : Z) : is_u64 x -> x = shl64 x 17 -> x = 0.
Proof.
  unfold shl64, wrap64, is_u64, modulus. intros Hx Heq.
  rewrite Z.shiftl_mul_pow2 in Heq by lia.
  assert (Hdiv : (2 ^ 64 | (2 ^ 17 - 1) * x)).
  { exists ((x * 2 ^ 17) / 2 ^ 64).
    pose proof (Z.div_mod (x * 2 ^ 17) (2 ^ 64)) as Hdm.
    rewrite <- Heq in Hdm. lia. }
  apply Z.gauss in Hdiv; [| reflexivity].
  destruct Hdiv as [q Hq]. lia.
Qed.

Lemma rotl_zero (x k : Z) : is_u64 x -> 0 < k < 64 -> rotl x k = 0 -> x = 0.
Proof.
  intros Hx Hk H0. rewrite <- (rotl_unrotl x k Hx Hk), H0.
  unfold rotl, shl64, shr64. rewrite Z.shiftl_0_l, Z.shiftr_0_l. reflexivity.
Qed.

Lemma wf_words (state : xoshiro_state) (i : Z) :
  Xoshiro.wf state -> 0 <= i < 4 -> is_u64 (s_at state i).
Proof.
  intros [Hlen Hall] Hi. unfold s_at, Arr.get.
  apply (Forall_lookup_total_1 is_u64 (s state)); [exact Hall | lia].
Qed.

(** C5: a step from a state that is not all zero ends in a state that is
    not all zero. *)
Theorem xoshiro_next_not_all_zero (state : xoshiro_state) :
  Xoshiro.wf state -> ~ all_zero state -> ~ all_zero (snd (xoshiro_next state)).
Proof.
  intros Hwf Hnz Hz. apply Hnz.
  pose proof (wf_words state 0 Hwf ltac:(lia)) as R0.
  pose proof (wf_words state 1 Hwf ltac:(lia)) as R1.
  pose proof (wf_words state 2 Hwf ltac:(lia)) as R2.
  pose proof (wf_words state 3 Hwf ltac:(lia)) as R3.
  rewrite (xoshiro_next_closed state (proj1 Hwf)) in Hz.
  unfold all_zero in *. revert Hz R0 R1 R2 R3.
  generalize (s_at state 0) (s_at state 1) (s_at state 2) (s_at state 3).
  intros a b c d (H0 & H1 & H2 & H3) Ra Rb Rc Rd.
  change (Z.lxor a (Z.lxor d b) = 0) in H0.
  change (Z.lxor b (Z.lxor c a) = 0) in H1.
  change (Z.lxor (Z.lxor c a) (shl64 b 17) = 0) in H2.
  change (rotl (Z.lxor d b) 45 = 0) in H3.
  apply rotl_zero in H3; [| apply lxor_u64; assumption | lia].
  rewrite H3, Z.lxor_0_r in H0. subst a.
  rewrite Z.lxor_0_r in H1, H2.
  apply Z.lxor_eq in H1. apply Z.lxor_eq in H3. subst c d.
  apply Z.lxor_eq in H2. apply shl17_fixed_zero in H2; [| assumption].
  subst b. repeat split; reflexivity.
Qed.

Lemma xoshiro_next_not_all_zero_witness :
  Xoshiro.wf (XState [1; 2; 3; 4]) /\ ~ all_zero (XState [1; 2; 3; 4]) /\
  ~ all_zero (snd (xoshiro_next (XState [1; 2; 3; 4]))).
Proof.
  assert (Hwf : Xoshiro.wf (XState [1; 2; 3; 4])).
  { split; [reflexivity |].
    repeat constructor; unfold modulus; simpl; lia. }
  assert (Hnz : ~ all_zero (XState [1; 2; 3; 4])).
  { intros (H0 & _). vm_compute in H0. discriminate H0. }
  split; [exact Hwf | split; [exact Hnz |]].
  exact (xoshiro_next_not_all_zero (XState [1; 2; 3; 4]) Hwf Hnz).
Defined.

End XoshiroFacts.

(** * MT19937-64: seeding *)

Section SeedFacts.

Lemma add64_small (x y : Z) : 0 <= x + y < 2 ^ 64 -> add64 x y = x + y.
Proof. intros H. apply wrap64_small. exact H. Qed.

Lemma context_eq (c1 c2 : mt19937_64) :
  mt c1 = mt c2 -> mti c1 = mti c2 -> c1 = c2.
Proof. destruct c1, c2; simpl; intros -> ->; reflexivity. Qed.

Lemma wf_set_mt (c : mt19937_64) (i v : Z) : MT.wf c -> MT.wf (set_mt c i v).
Proof. unfold MT.wf, set_mt; simpl. rewrite length_set. trivial. Qed.

Lemma mt_at_set_eq (c : mt19937_64) (i v : Z) :
  MT.wf c -> 0 <= i < 312 -> mt_at (set_mt c i v) i = v.
Proof.
  unfold MT.wf, mt_at, set_mt; simpl. intros Hwf Hi.
  apply get_set_eq. lia.
Qed.

Lemma mt_at_set_ne (c : mt19937_64) (i j v : Z) :
  0 <= i -> 0 <= j -> i <> j -> mt_at (set_mt c i v) j = mt_at c j.
Proof. unfold mt_at, set_mt; simpl. apply get_set_ne. Qed.

Lemma init_body_mti (c : mt19937_64) :
  0 <= mti c < NN -> mti (init_body c) = mti c + 1.
Proof.
  unfold NN. intros H. unfold init_body, set_mti, set_mt; simpl.
  apply add64_small. lia.
Qed.

Lemma init_body_wf (c : mt19937_64) : MT.wf c -> MT.wf (init_body c).
Proof.
  intros H. unfold init_body, set_mti, MT.wf; simpl.
  rewrite length_set. exact H.
Qed.

Lemma init_body_below (c : mt19937_64) (k : Z) :
  0 <= k < mti c -> mt_at (init_body c) k = mt_at c k.
Proof.
  intros Hk. unfold init_body, set_mti, mt_at; simpl.
  apply get_set_ne; lia.
Qed.

Lemma init_body_at (c : mt19937_64) :
  MT.wf c -> 0 <= mti c < NN ->
  mt_at (init_body c) (mti c)
  = add64 (mul64 6364136223846793005
             (Z.lxor (mt_at c (mti c - 1)) (shr64 (mt_at c (mti c - 1)) 62)))
          (mti c).
Proof.
  unfold NN. intros Hwf Hi. unfold init_body, set_mti, mt_at; simpl.
  apply get_set_eq. rewrite Hwf. lia.
Qed.

(** The loop leaves by its guard: [fuel] turns are enough once they cover
    the distance from [mti] to [NN]. *)
Lemma init_loop_mti (fuel : nat) : forall c : mt19937_64,
  0 <= mti c <= NN -> (Z.to_nat (NN - mti c) <= fuel)%nat ->
  mti (init_loop fuel c) = NN.
Proof.
  induction fuel as [| fuel IH]; intros c Hr Hf; simpl.
  - lia.
  - destruct (Z.ltb_spec (mti c) NN) as [Hlt | Hge]; [| lia].
    apply IH; rewrite init_body_mti by lia; lia.
Qed.

Lemma init_loop_wf (fuel : nat) : forall c : mt19937_64,
  MT.wf c -> MT.wf (init_loop fuel c).
Proof.
  induction fuel as [| fuel IH]; intros c Hwf; simpl; [exact Hwf |].
  destruct (mti c <? NN); [| exact Hwf].
  apply IH, init_body_wf, Hwf.
Qed.

(** The loop writes at [mti] and above only. *)
Lemma init_loop_below (fuel : nat) : forall (c : mt19937_64) (k : Z),
  0 <= k < mti c -> mti c <= NN -> mt_at (init_loop fuel c) k = mt_at c k.
Proof.
  induction fuel as [| fuel IH]; intros c k Hk Hn; simpl; [reflexivity |].
  destruct (Z.ltb_spec (mti c) NN) as [Hlt | Hge]; [| reflexivity].
  rewrite IH.
  - apply init_body_below, Hk.
  - rewrite init_body_mti by lia. lia.
  - rewrite init_body_mti by lia. lia.
Qed.

(** Two structures that agree below [mti] leave the loop equal: whatever
    the array held at [mti] and above is overwritten. *)
Lemma init_loop_agree (fuel : nat) : forall c1 c2 : mt19937_64,
  MT.wf c1 -> MT.wf c2 -> mti c1 = mti c2 -> 1 <= mti c1 <= NN ->
  (forall k, 0 <= k < mti c1 -> mt_at c1 k = mt_at c2 k) ->
  (Z.to_nat (NN - mti c1) <= fuel)%nat ->
  init_loop fuel c1 = init_loop fuel c2.
Proof.
  assert (Hdone : forall c1 c2 : mt19937_64,
    MT.wf c1 -> MT.wf c2 -> mti c1 = mti c2 -> mti c1 = NN ->
    (forall k, 0 <= k < mti c1 -> mt_at c1 k = mt_at c2 k) -> c1 = c2).
  { intros c1 c2 W1 W2 Hm Hn Hag. apply context_eq; [| exact Hm].
    apply (arr_ext 312 _ _ W1 W2). intros k Hk. apply Hag.
    rewrite Hn. unfold NN. lia. }
  induction fuel as [| fuel IH]; intros c1 c2 W1 W2 Hm Hr Hag Hf; simpl.
  - apply Hdone; trivial. lia.
  - rewrite <- Hm.
    destruct (Z.ltb_spec (mti c1) NN) as [Hlt | Hge];
      [| apply Hdone; trivial; lia].
    assert (Hm1 : mti (init_body c1) = mti c1 + 1)
      by (apply init_body_mti; lia).
    assert (Hm2 : mti (init_body c2) = mti c1 + 1)
      by (rewrite init_body_mti; lia).
    apply IH; try (apply init_body_wf; assumption); try lia.
    intros k Hk. rewrite Hm1 in Hk.
    destruct (Z.eq_dec k (mti c1)) as [-> | Hne].
    + rewrite (init_body_at c1 W1) by lia.
      replace (mt_at (init_body c2) (mti c1))
        with (mt_at (init_body c2) (mti c2)) by (rewrite Hm; reflexivity).
      rewrite (init_body_at c2 W2) by lia. rewrite <- Hm.
      rewrite (Hag (mti c1 - 1)) by lia. reflexivity.
    + rewrite !init_body_below by lia. apply Hag. lia.
Qed.

Lemma init_genrand64_mti (c : mt19937_64) (seed : Z) :
  mti (init_genrand64 c seed) = 312.
Proof.
  unfold init_genrand64. rewrite init_loop_mti; [reflexivity | |];
    unfold set_mti, NN; simpl; lia.
Qed.

Lemma init_genrand64_wf (c : mt19937_64) (seed : Z) :
  MT.wf c -> MT.wf (init_genrand64 c seed).
Proof.
  intros H. unfold init_genrand64. apply init_loop_wf.
  unfold set_mti, MT.wf; simpl. rewrite length_set. exact H.
Qed.

Lemma init_genrand64_first (c : mt19937_64) (seed : Z) :
  MT.wf c -> mt_at (init_genrand64 c seed) 0 = seed.
Proof.
  intros H. unfold init_genrand64. rewrite init_loop_below.
  - unfold set_mti, mt_at; simpl. apply get_set_eq. rewrite H. lia.
  - unfold set_mti; simpl. lia.
  - unfold set_mti, NN; simpl. lia.
Qed.

(** Scalar seeding does not depend on what the structure held before. *)
Lemma init_genrand64_fresh (c1 c2 : mt19937_64) (seed : Z) :
  MT.wf c1 -> MT.wf c2 -> init_genrand64 c1 seed = init_genrand64 c2 seed.
Proof.
  intros W1 W2. unfold init_genrand64.
  apply init_loop_agree; unfold set_mti, NN; simpl; try lia.
  - unfold MT.wf; simpl. rewrite length_set. exact W1.
  - unfold MT.wf; simpl. rewrite length_set. exact W2.
  - intros k Hk. assert (k = 0) as -> by lia. unfold mt_at; simpl.
    rewrite !get_set_eq by (rewrite ?W1, ?W2; lia). reflexivity.
Qed.

(** One turn of the first loop: [mti] and the length of the array stay,
    [i] runs through 1 .. 311 and [j] through 0 .. [key_length - 1]. *)
Lemma pass1_body_spec (init_key : list Z) (key_length : Z) (st : cursor) :
  1 <= cur_i st <= 311 -> 0 <= cur_j st < key_length -> key_length < 2 ^ 64 ->
  let st' := pass1_body init_key key_length st in
  mti (cur_context st') = mti (cur_context st) /\
  (MT.wf (cur_context st) -> MT.wf (cur_context st')) /\
  cur_i st' = 1 + cur_i st mod 311 /\
  cur_j st' = (cur_j st + 1) mod key_length.
Proof.
  destruct st as [[c i] j]. unfold cur_i, cur_j, cur_context; simpl fst; simpl snd.
  intros Hi Hj HL. unfold pass1_body.
  rewrite (add64_small i 1), (add64_small j 1) by lia.
  assert (Hjm : (if key_length <=? j + 1 then 0 else j + 1)
                = (j + 1) mod key_length).
  { destruct (Z.leb_spec key_length (j + 1)).
    - replace (j + 1) with key_length by lia. symmetry. apply Z_mod_same_full.
    - symmetry. apply Z.mod_small. lia. }
  unfold NN. destruct (Z.leb_spec 312 (i + 1)) as [Hw | Hn]; simpl.
  - assert (i = 311) as -> by lia.
    repeat split; trivial. intros W. apply wf_set_mt, wf_set_mt, W.
  - rewrite (Z.mod_small i 311) by lia.
    repeat split; trivial; [| lia]. intros W. apply wf_set_mt, W.
Qed.

Lemma pass1_spec (init_key : list Z) (key_length : Z) (n : nat) :
  forall st : cursor,
  1 <= cur_i st <= 311 -> 0 <= cur_j st < key_length -> key_length < 2 ^ 64 ->
  let st' := pass1 n init_key key_length st in
  mti (cur_context st') = mti (cur_context st) /\
  (MT.wf (cur_context st) -> MT.wf (cur_context st')) /\
  cur_i st' = 1 + (cur_i st - 1 + Z.of_nat n) mod 311 /\
  cur_j st' = (cur_j st + Z.of_nat n) mod key_length.
Proof.
  induction n as [| n IH]; intros st Hi Hj HL.
  - simpl. rewrite !Z.add_0_r.
    rewrite (Z.mod_small (cur_i st - 1)), (Z.mod_small (cur_j st)) by lia.
    repeat split; trivial. lia.
  - destruct (pass1_body_spec init_key key_length st Hi Hj HL)
      as (Bm & Bw & Bi & Bj).
    assert (Hi' : 1 <= cur_i (pass1_body init_key key_length st) <= 311).
    { rewrite Bi. pose proof (Z.mod_pos_bound (cur_i st) 311). lia. }
    assert (Hj' : 0 <= cur_j (pass1_body init_key key_length st) < key_length).
    { rewrite Bj. apply Z.mod_pos_bound. lia. }
    destruct (IH _ Hi' Hj' HL) as (Im & Iw & Ii & Ij).
    change (pass1 (S n) init_key key_length st)
      with (pass1 n init_key key_length (pass1_body init_key key_length st)).
    cbv zeta. rewrite Im, Ii, Ij, Bm, Bi, Bj.
    repeat split; [tauto | |].
    + f_equal. replace (1 + cur_i st mod 311 - 1) with (cur_i st mod 311) by lia.
      rewrite Z.add_mod_idemp_l by lia. f_equal. lia.
    + rewrite Z.add_mod_idemp_l by lia. f_equal. lia.
Qed.

(** One turn of the second loop. *)
Lemma pass2_body_spec (st : mt19937_64 * Z) :
  1 <= snd st <= 311 ->
  mti (fst (pass2_body st)) = mti (fst st) /\
  (MT.wf (fst st) -> MT.wf (fst (pass2_body st))) /\
  snd (pass2_body st) = 1 + snd st mod 311.
Proof.
  destruct st as [c i]. simpl fst; simpl snd. intros Hi. unfold pass2_body.
  rewrite (add64_small i 1) by lia.
  unfold NN. destruct (Z.leb_spec 312 (i + 1)) as [Hw | Hn]; simpl.
  - assert (i = 311) as -> by lia.
    repeat split; trivial. intros W. apply wf_set_mt, wf_set_mt, W.
  - rewrite (Z.mod_small i 311) by lia.
    repeat split; trivial; [| lia]. intros W. apply wf_set_mt, W.
Qed.

Lemma pass2_spec (n : nat) : forall st : mt19937_64 * Z,
  1 <= snd st <= 311 ->
  mti (fst (pass2 n st)) = mti (fst st) /\
  (MT.wf (fst st) -> MT.wf (fst (pass2 n st))) /\
  snd (pass2 n st) = 1 + (snd st - 1 + Z.of_nat n) mod 311.
Proof.
  induction n as [| n IH]; intros st Hi.
  - simpl. rewrite Z.add_0_r, (Z.mod_small (snd st - 1)) by lia.
    repeat split; trivial. lia.
  - destruct (pass2_body_spec st Hi) as (Bm & Bw & Bi).
    assert (Hi' : 1 <= snd (pass2_body st) <= 311).
    { rewrite Bi. pose proof (Z.mod_pos_bound (snd st) 311). lia. }
    destruct (IH _ Hi') as (Im & Iw & Ii).
    change (pass2 (S n) st) with (pass2 n (pass2_body st)).
    rewrite Im, Ii, Bm, Bi. repeat split; [tauto |].
    f_equal. replace (1 + snd st mod 311 - 1) with (snd st mod 311) by lia.
    rewrite Z.add_mod_idemp_l by lia. f_equal. lia.
Qed.

Lemma pass1_count_max (key_length : Z) :
  pass1_count key_length = Z.max 312 key_length.
Proof.
  unfold pass1_count, NN. destruct (Z.gtb_spec 312 key_length); lia.
Qed.

Lemma after_pass1_spec (c : mt19937_64) (init_key : list Z) (key_length : Z) :
  MT.wf c -> 0 < key_length < 2 ^ 64 ->
  let p1 := after_pass1 c init_key key_length in
  mti (cur_context p1) = 312 /\ MT.wf (cur_context p1) /\
  cur_i p1 = 1 + pass1_count key_length mod 311 /\
  cur_j p1 = pass1_count key_length mod key_length.
Proof.
  intros W HL. unfold after_pass1.
  pose proof (init_genrand64_mti c 19650218) as Sm.
  pose proof (init_genrand64_wf c 19650218 W) as Sw.
  generalize dependent (init_genrand64 c 19650218). intros seeded Sm Sw.
  destruct (pass1_spec init_key key_length
              (Z.to_nat (pass1_count key_length)) (seeded, 1, 0))
    as (Hm & Hw & Hi & Hj); unfold cur_i, cur_j; simpl; try lia.
  unfold cur_context in *; simpl in Hm, Hw.
  unfold cur_i in Hi; unfold cur_j in Hj; simpl in Hi, Hj.
  rewrite Z2Nat.id in Hi, Hj by (rewrite pass1_count_max; lia).
  rewrite Sm in Hm.
  repeat split; trivial.
  apply Hw, Sw.
Qed.

Lemma after_pass2_spec (c : mt19937_64) (init_key : list Z) (key_length : Z) :
  MT.wf c -> 0 < key_length < 2 ^ 64 ->
  let p2 := after_pass2 c init_key key_length in
  mti (fst p2) = 312 /\ MT.wf (fst p2) /\
  snd p2 = cur_i (after_pass1 c init_key key_length).
Proof.
  intros W HL.
  destruct (after_pass1_spec c init_key key_length W HL) as (Hm & Hw & Hi & _).
  unfold after_pass2.
  destruct (after_pass1 c init_key key_length) as [[c1 i1] j1].
  unfold cur_context, cur_i in *; cbn [fst snd] in Hm, Hw, Hi |- *.
  assert (Hr : 1 <= i1 <= 311).
  { rewrite Hi. pose proof (Z.mod_pos_bound (pass1_count key_length) 311). lia. }
  destruct (pass2_spec (Z.to_nat pass2_count) (c1, i1) Hr) as (Pm & Pw & Pi).
  cbn [fst snd] in Pm, Pw, Pi. rewrite Pm, Pi.
  repeat split; [exact Hm | tauto |].
  unfold pass2_count, NN.
  replace (i1 - 1 + Z.of_nat (Z.to_nat (312 - 1))) with (i1 - 1 + 1 * 311) by lia.
  rewrite Z.mod_add by lia. rewrite Z.mod_small by lia. lia.
Qed.

Lemma init_by_array64_spec (c : mt19937_64) (init_key : list Z)
    (key_length : Z) :
  MT.wf c -> 0 < key_length < 2 ^ 64 ->
  let final := init_by_array64 c init_key key_length in
  mt_at final 0 = 2 ^ 63 /\ mti final = 312 /\ MT.wf final.
Proof.
  intros W HL.
  destruct (after_pass2_spec c init_key key_length W HL) as (Hm & Hw & _).
  unfold init_by_array64.
  destruct (after_pass2 c init_key key_length) as [c2 i2].
  cbn [fst snd] in Hm, Hw |- *. repeat split.
  - rewrite mt_at_set_eq by (trivial; lia). reflexivity.
  - exact Hm.
  - apply wf_set_mt, Hw.
Qed.

(** C6: array seeding with a non-empty key ends with [mt[0] = 2^63] and
    [mti = 312].  The first loop makes [max(312, key_length)] turns, after
    [n] of which [i] stands at [1 + n mod 311] (from 311 it goes back to 1)
    and [j] at [n mod key_length] (from [key_length - 1] it goes back to
    0); the second loop makes 311 turns and brings [i] back to where it
    started; [mti] is 312 after the scalar seeding with 19650218 and still
    312 after each loop. *)
Theorem init_by_array64_final (c : mt19937_64) (init_key : list Z)
    (key_length : Z) :
  MT.wf c -> key_length = Z.of_nat (length init_key) ->
  0 < key_length < 2 ^ 64 ->
  let seeded := init_genrand64 c 19650218 in
  let p1 := after_pass1 c init_key key_length in
  let p2 := after_pass2 c init_key key_length in
  let final := init_by_array64 c init_key key_length in
  (mt_at final 0 = 2 ^ 63 /\ mti final = 312 /\ MT.wf final) /\
  (pass1_count key_length = Z.max 312 key_length /\
   forall n : nat,
     cur_i (pass1 n init_key key_length (seeded, 1, 0))
     = 1 + Z.of_nat n mod 311 /\
     cur_j (pass1 n init_key key_length (seeded, 1, 0))
     = Z.of_nat n mod key_length) /\
  (pass2_count = 311 /\ snd p2 = cur_i p1) /\
  (mti seeded = 312 /\ mti (cur_context p1) = 312 /\ mti (fst p2) = 312).
Proof.
  intros W _ HL. cbv zeta.
  destruct (after_pass1_spec c init_key key_length W HL) as (H1m & _).
  destruct (after_pass2_spec c init_key key_length W HL) as (H2m & _ & H2i).
  split; [apply init_by_array64_spec; assumption |].
  split; [split; [apply pass1_count_max |] |].
  - intros n. generalize (init_genrand64 c 19650218). intros seeded.
    destruct (pass1_spec init_key key_length n (seeded, 1, 0))
      as (_ & _ & Hi & Hj); unfold cur_i, cur_j; simpl; try lia.
    unfold cur_i in Hi; unfold cur_j in Hj; simpl in Hi, Hj.
    rewrite Hi, Hj. split; f_equal; f_equal; lia.
  - split; [split; [reflexivity | exact H2i] |].
    split; [apply init_genrand64_mti | split; assumption].
Qed.

Lemma init_by_array64_final_witness :
  MT.wf blank /\
  4 = Z.of_nat (length reference_key) /\
  0 < 4 < 2 ^ 64 /\
  mt_at (init_by_array64 blank reference_key 4) 0
  = 2 ^ 63 /\
  mti (init_by_array64 blank reference_key 4) = 312.
Proof.
  assert (W : MT.wf blank) by reflexivity.
  assert (HL : 4 = Z.of_nat (length reference_key))
    by reflexivity.
  assert (Hr : 0 < 4 < 2 ^ 64) by lia.
  split; [exact W | split; [exact HL | split; [exact Hr |]]].
  pose proof (init_by_array64_final blank
                reference_key 4 W HL Hr) as H.
  cbv zeta in H. destruct H as ((H0 & Hm & _) & _).
  split; [exact H0 | exact Hm].
Defined.

Lemma u64_msb (x : Z) : is_u64 x -> (Z.testbit x 63 = true <-> 2 ^ 63 <= x).
Proof.
  unfold is_u64, modulus. intros Hx.
  rewrite Z.testbit_true by lia.
  change (2 ^ 64) with (2 ^ 63 * 2) in Hx.
  generalize dependent (2 ^ 63). intros p Hp.
  split; intros H.
  - destruct (Z.lt_ge_cases x p) as [Hlt | Hge]; [| exact Hge].
    rewrite Z.div_small in H by lia. discriminate H.
  - assert (x / p = 1) as -> by (symmetry; apply (Z.div_unique x p 1 (x - p)); lia).
    reflexivity.
Qed.

(** C3, as the code has it: after array seeding with a non-empty key,
    [mt[0]] has its most significant bit set; after scalar seeding [mt[0]]
    is the seed itself, so its most significant bit is set exactly when the
    seed is at least 2^63. *)
Theorem seeding_first_word_msb (c : mt19937_64) :
  MT.wf c ->
  (forall (init_key : list Z) (key_length : Z),
     key_length = Z.of_nat (length init_key) -> 0 < key_length < 2 ^ 64 ->
     Z.testbit (mt_at (init_by_array64 c init_key key_length) 0) 63 = true) /\
  (forall seed : Z, is_u64 seed ->
     mt_at (init_genrand64 c seed) 0 = seed /\
     (Z.testbit (mt_at (init_genrand64 c seed) 0) 63 = true
      <-> 2 ^ 63 <= seed)).
Proof.
  intros W. split.
  - intros init_key key_length _ HL.
    destruct (init_by_array64_spec c init_key key_length W HL) as (H0 & _).
    cbv zeta in H0. rewrite H0. reflexivity.
  - intros seed Hs. rewrite (init_genrand64_first c seed W).
    split; [reflexivity | apply u64_msb, Hs].
Qed.

Lemma seeding_first_word_msb_witness :
  MT.wf blank /\
  Z.testbit
    (mt_at (init_by_array64 blank reference_key 4) 0)
    63 = true /\
  mt_at (init_genrand64 blank 5489) 0 = 5489.
Proof.
  assert (W : MT.wf blank) by reflexivity.
  split; [exact W |].
  destruct (seeding_first_word_msb blank W) as [Harr Hsc]. split.
  - apply Harr; [reflexivity | lia].
  - apply Hsc. unfold is_u64, modulus. lia.
Defined.

(** C3 as worded for every seeding operation fails for scalar seeding:
    seeded with 5489 the first word is 5489, whose most significant bit is
    clear. *)
Lemma seeding_msb_scalar_counterexample :
  MT.wf blank /\ is_u64 5489 /\
  Z.testbit (mt_at (init_genrand64 blank 5489) 0) 63 = false.
Proof.
  split; [reflexivity |]. split; [unfold is_u64, modulus; lia |].
  vm_compute. reflexivity.
Qed.

End SeedFacts.

(** * MT19937-64: extraction *)

Section UntwistFacts.

(** [(w & 1) * MATRIX_A] selects [MATRIX_A] by the lowest bit of [w]. *)
Lemma mag_select (w : Z) :
  mul64 (Z.land w 1) MATRIX_A = if Z.testbit w 0 then MATRIX_A else 0.
Proof.
  change 1 with (Z.ones 1) at 1. rewrite Z.land_ones by lia.
  change (2 ^ 1) with 2. rewrite <- Z.bit0_mod.
  destruct (Z.testbit w 0); reflexivity.
Qed.

Lemma untwist_body_inv (words : list Z) (m : Z) (c : mt19937_64) (i : Z) :
  0 <= i < 155 -> loop_inv words m c i ->
  exists c', untwist_body 156 (c, i, 156 + i) = (c', i + 1, 156 + (i + 1))
             /\ loop_inv words m c' (i + 1).
Proof.
  intros Hi (W & Hm & Hk). unfold untwist_body.
  rewrite (add64_small i 1), (add64_small (156 + i) 1) by lia.
  replace (156 + i + 1) with (156 + (i + 1)) by lia.
  eexists. split; [reflexivity |].
  assert (G : forall k, 0 <= k < 312 -> ~ k < i ->
                ~ (156 <= k < 156 + i) -> mt_at c k = Arr.get words k).
  { intros k Hr H1 H2. rewrite (Hk k Hr). unfold partly.
    destruct (Z.ltb_spec k i); [lia |].
    destruct (Z.leb_spec 156 k), (Z.ltb_spec k (156 + i)); simpl;
      try reflexivity; lia. }
  split; [apply wf_set_mt, wf_set_mt, W |]. split; [exact Hm |].
  intros k Hr.
  rewrite (G i), (G (i + 1)), (G (i + 156)) by lia.
  fold (twisted (Arr.get words (i + 156)) (Arr.get words i)
                (Arr.get words (i + 1))).
  fold (regenerated_low words i).
  replace (156 + i - 156) with i by lia.
  rewrite (mt_at_set_eq c i) by (trivial; lia).
  rewrite (mt_at_set_ne c i (156 + i)), (mt_at_set_ne c i (156 + (i + 1)))
    by lia.
  rewrite (G (156 + i)), (G (156 + (i + 1))) by lia.
  destruct (Z.eq_dec k (156 + i)) as [-> | Hne1].
  - rewrite mt_at_set_eq by (try apply wf_set_mt; trivial; lia).
    unfold partly.
    destruct (Z.ltb_spec (156 + i) (i + 1)); [lia |].
    destruct (Z.leb_spec 156 (156 + i)); [| lia].
    destruct (Z.ltb_spec (156 + i) (156 + (i + 1))); [| lia]. simpl.
    unfold regenerated_high, twisted.
    replace (156 + i - 156) with i by lia.
    replace (156 + i + 1) with (156 + (i + 1)) by lia. reflexivity.
  - rewrite mt_at_set_ne by lia.
    destruct (Z.eq_dec k i) as [-> | Hne2].
    + rewrite mt_at_set_eq by (trivial; lia). unfold partly.
      destruct (Z.ltb_spec i (i + 1)); [reflexivity | lia].
    + rewrite mt_at_set_ne by lia. rewrite (Hk k Hr). unfold partly.
      destruct (Z.ltb_spec k i), (Z.ltb_spec k (i + 1)); try lia;
        try reflexivity.
      destruct (Z.leb_spec 156 k); simpl; [| reflexivity].
      destruct (Z.ltb_spec k (156 + i)), (Z.ltb_spec k (156 + (i + 1)));
        try lia; reflexivity.
Qed.

(** The loop leaves by its guard, at [i = 155] and [j = 311]. *)
Lemma untwist_loop_inv (words : list Z) (m : Z) (fuel : nat) :
  forall (c : mt19937_64) (i : Z),
  0 <= i <= 155 -> (Z.to_nat (155 - i) <= fuel)%nat ->
  loop_inv words m c i ->
  exists c', untwist_loop fuel 156 (c, i, 156 + i) = (c', 155, 311)
             /\ loop_inv words m c' 155.
Proof.
  induction fuel as [| fuel IH]; intros c i Hi Hf Hinv.
  - assert (i = 155) as -> by lia. exists c. split; [reflexivity | exact Hinv].
  - cbn [untwist_loop]. change (156 - 1) with 155.
    destruct (Z.eqb_spec i 155) as [-> | Hne]; cbn [negb].
    + exists c. split; [reflexivity | exact Hinv].
    + destruct (untwist_body_inv words m c i ltac:(lia) Hinv) as (c1 & -> & Hinv1).
      apply IH; [lia | lia | exact Hinv1].
Qed.

Lemma loop_inv_start (c : mt19937_64) :
  MT.wf c -> loop_inv (mt c) (mti c) c 0.
Proof.
  intros W. split; [exact W |]. split; [reflexivity |].
  intros k Hk. unfold partly.
  destruct (Z.ltb_spec k 0); [lia |].
  destruct (Z.leb_spec 156 k), (Z.ltb_spec k (156 + 0)); simpl;
    try reflexivity; lia.
Qed.

(** The code, word by word. *)
Lemma regenerate_words (c : mt19937_64) :
  MT.wf c ->
  MT.wf (regenerate c) /\ mti (regenerate c) = 0 /\
  forall k, 0 <= k < 312 ->
    Arr.get (mt (regenerate c)) k = regenerated (mt c) k.
Proof.
  intros W. unfold regenerate. change (NN / 2) with 156.
  change (156 - 1) with 155. change (NN - 1) with 311.
  destruct (untwist_loop_inv (mt c) (mti c) (Z.to_nat 156) c 0
              ltac:(lia) ltac:(lia) (loop_inv_start c W))
    as (c' & Hloop & W' & _ & Hk).
  change (156 + 0) with 156 in Hloop. rewrite Hloop.
  assert (H155 : mt_at c' 155 = Arr.get (mt c) 155) by (rewrite Hk by lia; reflexivity).
  assert (H311 : mt_at c' 311 = Arr.get (mt c) 311) by (rewrite Hk by lia; reflexivity).
  assert (H0 : mt_at c' 0 = regenerated_low (mt c) 0) by (rewrite Hk by lia; reflexivity).
  rewrite H155, H311.
  fold (mt_at c 156).
  fold (twisted (Arr.get (mt c) 311) (Arr.get (mt c) 155) (mt_at c 156)).
  change (twisted (Arr.get (mt c) 311) (Arr.get (mt c) 155) (mt_at c 156))
    with (regenerated_low (mt c) 155).
  rewrite (mt_at_set_eq c' 155) by (trivial; lia).
  rewrite (mt_at_set_ne c' 155 311), (mt_at_set_ne c' 155 0) by lia.
  rewrite H311, H0.
  fold (twisted (regenerated_low (mt c) 155) (Arr.get (mt c) 311)
                (regenerated_low (mt c) 0)).
  fold (regenerated_last (mt c)).
  split; [apply wf_set_mt, wf_set_mt, W' |]. split; [reflexivity |].
  intros k Hr. unfold set_mti. cbn [mt].
  fold (mt_at (set_mt (set_mt c' 155 (regenerated_low (mt c) 155)) 311
                 (regenerated_last (mt c))) k).
  unfold regenerated.
  destruct (Z.eq_dec k 311) as [-> | Hn311].
  - rewrite mt_at_set_eq by (try apply wf_set_mt; trivial; lia). reflexivity.
  - rewrite mt_at_set_ne by lia.
    destruct (Z.eq_dec k 155) as [-> | Hn155].
    + rewrite mt_at_set_eq by (trivial; lia). reflexivity.
    + rewrite mt_at_set_ne by lia. rewrite (Hk k Hr). unfold partly.
      destruct (Z.ltb_spec k 155), (Z.ltb_spec k 156); try lia;
        try reflexivity.
      destruct (Z.leb_spec 156 k); [| lia].
      destruct (Z.ltb_spec k (156 + 155)), (Z.ltb_spec k 311); try lia.
      reflexivity.
Qed.

(** The textbook pass, word by word: once the positions below [k] are
    done, doing [n] more leaves the positions below [k + n] done and the
    others as they were. *)
Lemma textbook_word_regenerated (words b : list Z) (k : Z) :
  0 <= k < 312 ->
  (forall p, 0 <= p < 312 ->
     Arr.get b p = if p <? k then regenerated words p else Arr.get words p) ->
  textbook_word b k = regenerated words k.
Proof.
  intros Hk Hb. unfold textbook_word.
  change 0xB5026F5AA96619E9 with MATRIX_A.
  rewrite <- mag_select.
  change 0xFFFFFFFF80000000 with UM. change 0x7FFFFFFF with LM.
  fold (shr64 (Z.lor (Z.land (Arr.get b k) UM)
                     (Z.land (Arr.get b ((k + 1) mod 312)) LM)) 1).
  fold (twisted (Arr.get b ((k + 156) mod 312)) (Arr.get b k)
                (Arr.get b ((k + 1) mod 312))).
  assert (Hself : Arr.get b k = Arr.get words k).
  { rewrite (Hb k Hk). destruct (Z.ltb_spec k k); [lia | reflexivity]. }
  rewrite Hself. unfold regenerated.
  destruct (Z.ltb_spec k 156) as [Hlow | Hhigh].
  - rewrite (Z.mod_small (k + 156)), (Z.mod_small (k + 1)) by lia.
    rewrite (Hb (k + 156)), (Hb (k + 1)) by lia.
    destruct (Z.ltb_spec (k + 156) k), (Z.ltb_spec (k + 1) k); try lia.
    reflexivity.
  - replace ((k + 156) mod 312) with (k - 156)
      by (apply (Z.mod_unique_pos _ _ 1); lia).
    rewrite (Hb (k - 156)) by lia.
    destruct (Z.ltb_spec (k - 156) k); [| lia].
    unfold regenerated at 1.
    destruct (Z.ltb_spec (k - 156) 156); [| lia].
    destruct (Z.ltb_spec k 311) as [Hmid | Hlast].
    + rewrite (Z.mod_small (k + 1)) by lia. rewrite (Hb (k + 1)) by lia.
      destruct (Z.ltb_spec (k + 1) k); [lia |]. reflexivity.
    + assert (k = 311) as -> by lia.
      change ((311 + 1) mod 312) with 0. rewrite (Hb 0) by lia.
      reflexivity.
Qed.

Lemma textbook_pass_words (words : list Z) (n : nat) :
  forall (k : Z) (b : list Z),
  0 <= k -> k + Z.of_nat n <= 312 -> length b = 312%nat ->
  (forall p, 0 <= p < 312 ->
     Arr.get b p = if p <? k then regenerated words p else Arr.get words p) ->
  length (textbook_pass n k b) = 312%nat /\
  forall p, 0 <= p < 312 ->
    Arr.get (textbook_pass n k b) p
    = if p <? k + Z.of_nat n then regenerated words p else Arr.get words p.
Proof.
  induction n as [| n IH]; intros k b Hk Hn Hlen Hb.
  - simpl. rewrite Z.add_0_r. split; assumption.
  - cbn [textbook_pass].
    rewrite (textbook_word_regenerated words b k) by (trivial; lia).
    destruct (IH (k + 1) (Arr.set b k (regenerated words k)))
      as [Hl Hp]; try lia.
    + rewrite length_set. exact Hlen.
    + intros p Hr. destruct (Z.eq_dec p k) as [-> | Hne].
      * rewrite get_set_eq by lia.
        destruct (Z.ltb_spec k (k + 1)); [reflexivity | lia].
      * rewrite get_set_ne by lia. rewrite (Hb p Hr).
        destruct (Z.ltb_spec p k), (Z.ltb_spec p (k + 1)); try lia;
          reflexivity.
    + split; [exact Hl |]. intros p Hr. rewrite (Hp p Hr).
      replace (k + 1 + Z.of_nat n) with (k + Z.of_nat (S n)) by lia.
      reflexivity.
Qed.

Lemma textbook_untwist_words (words : list Z) :
  length words = 312%nat ->
  length (textbook_untwist words) = 312%nat /\
  forall p, 0 <= p < 312 ->
    Arr.get (textbook_untwist words) p = regenerated words p.
Proof.
  intros Hlen. unfold textbook_untwist.
  destruct (textbook_pass_words words 312 0 words) as [Hl Hp];
    try lia; trivial.
  - intros p Hr. destruct (Z.ltb_spec p 0); [lia | reflexivity].
  - split; [exact Hl |]. intros p Hr. rewrite (Hp p Hr).
    replace (0 + Z.of_nat 312) with 312 by lia.
    destruct (Z.ltb_spec p 312) as [_ | Hge]; [| lia].
    exact eq_refl.
Qed.

(** The regeneration code and the textbook recurrence write one array. *)
Lemma regenerate_textbook (c : mt19937_64) :
  MT.wf c -> mt (regenerate c) = textbook_untwist (mt c).
Proof.
  intros W.
  destruct (regenerate_words c W) as (Wr & _ & Hr).
  destruct (textbook_untwist_words (mt c) W) as (Wt & Ht).
  apply (arr_ext 312 _ _ Wr Wt).
  intros k Hk.
  assert (Hk' : 0 <= k < 312) by lia.
  exact (eq_trans (Hr k Hk') (eq_sym (Ht k Hk'))).
Qed.

Lemma genrand64_int64_context (c : mt19937_64) :
  snd (genrand64_int64 c)
  = set_mti (if NN <=? mti c then regenerate c else c)
            (add64 (mti (if NN <=? mti c then regenerate c else c)) 1).
Proof. reflexivity. Qed.

Lemma mt_set_mti (c : mt19937_64) (v : Z) : mt (set_mti c v) = mt c.
Proof. reflexivity. Qed.

Lemma mti_set_mti (c : mt19937_64) (v : Z) : mti (set_mti c v) = v.
Proof. reflexivity. Qed.

(** C1: on a structure whose index is at least 312, the array left by
    [genrand64_int64], regenerated by the two simultaneous passes and the
    two boundary assignments, is the array the textbook recurrence computes
    in one in-place pass over [k = 0 .. 311] with indices modulo 312. *)
Theorem untwist_equivalence (c : mt19937_64) :
  MT.wf c -> 312 <= mti c ->
  mt (snd (genrand64_int64 c)) = textbook_untwist (mt c).
Proof.
  intros W Hm. rewrite genrand64_int64_context.
  unfold NN. destruct (Z.leb_spec 312 (mti c)) as [_ | Hlt]; [| lia].
  rewrite mt_set_mti. exact (regenerate_textbook c W).
Qed.

Lemma untwist_equivalence_witness :
  MT.wf (init_genrand64 blank 5489) /\
  312 <= mti (init_genrand64 blank 5489) /\
  mt (snd (genrand64_int64 (init_genrand64 blank 5489)))
  = textbook_untwist (mt (init_genrand64 blank 5489)).
Proof.
  assert (W : MT.wf (init_genrand64 blank 5489)) by (vm_compute; reflexivity).
  assert (Hm : 312 <= mti (init_genrand64 blank 5489))
    by (vm_compute; discriminate).
  split; [exact W | split; [exact Hm |]].
  exact (untwist_equivalence (init_genrand64 blank 5489) W Hm).
Defined.

(** C10: a call on a structure whose index is below 312 leaves the 312
    words as they are and adds one to the index; hence a call that changes
    the array is a call made with the index at 312 or above. *)
Theorem genrand64_int64_frame (c : mt19937_64) :
  (0 <= mti c < 312 ->
   mt (snd (genrand64_int64 c)) = mt c /\
   mti (snd (genrand64_int64 c)) = mti c + 1) /\
  (mt (snd (genrand64_int64 c)) <> mt c -> 312 <= mti c).
Proof.
  rewrite genrand64_int64_context. unfold NN.
  destruct (Z.leb_spec 312 (mti c)) as [Hge | Hlt].
  - split; [lia | intros _; exact Hge].
  - rewrite mt_set_mti, mti_set_mti. split.
    + intros Hr. split; [reflexivity | apply add64_small; lia].
    + intros Hne. contradiction Hne. reflexivity.
Qed.

Lemma genrand64_int64_frame_witness :
  0 <= mti drawn_once < 312 /\
  mt (snd (genrand64_int64 drawn_once)) = mt drawn_once /\
  mti (snd (genrand64_int64 drawn_once)) = mti drawn_once + 1.
Proof.
  assert (Hr : 0 <= mti drawn_once < 312)
    by (vm_compute; split; [discriminate | reflexivity]).
  split; [exact Hr |].
  exact (proj1 (genrand64_int64_frame drawn_once) Hr).
Defined.

Lemma init_by_array64_fresh (c1 c2 : mt19937_64) (init_key : list Z)
    (key_length : Z) :
  MT.wf c1 -> MT.wf c2 ->
  init_by_array64 c1 init_key key_length
  = init_by_array64 c2 init_key key_length.
Proof.
  intros W1 W2. unfold init_by_array64, after_pass2, after_pass1.
  rewrite (init_genrand64_fresh c1 c2 19650218 W1 W2). reflexivity.
Qed.

(** C2: after array seeding with the key 0x12345, 0x23456, 0x34567,
    0x45678, the first call of [genrand64_int64] returns
    7266447313870364031, whatever the structure held before seeding. *)
Theorem reference_first_output (c : mt19937_64) :
  MT.wf c ->
  fst (genrand64_int64 (init_by_array64 c reference_key 4))
  = 7266447313870364031.
Proof.
  intros W.
  rewrite (init_by_array64_fresh c blank reference_key 4 W eq_refl).
  vm_compute. reflexivity.
Qed.

Lemma reference_first_output_witness :
  MT.wf blank /\
  fst (genrand64_int64 (init_by_array64 blank reference_key 4))
  = 7266447313870364031.
Proof.
  assert (W : MT.wf blank) by reflexivity.
  split; [exact W | exact (reference_first_output blank W)].
Defined.

End UntwistFacts.

(** * IEEE 754 binary64: rounding a product, a sum, a conversion *)

Section FloatFacts.

Lemma digits2_size (p : positive) : digits2_pos p = Pos.size p.
Proof. induction p as [p IH | p IH |]; simpl; rewrite ?IH; reflexivity. Qed.

Lemma digits_bounds (p : positive) :
  2 ^ (Zpos (digits2_pos p) - 1) <= Zpos p < 2 ^ Zpos (digits2_pos p).
Proof.
  rewrite digits2_size.
  pose proof (Pos.size_gt p) as Hgt. pose proof (Pos.size_le p) as Hle.
  apply Pos2Z.pos_lt_pos in Hgt. apply Pos2Z.pos_le_pos in Hle.
  rewrite Pos2Z.inj_pow in Hgt, Hle.
  change (Z.pos p~0) with (2 * Z.pos p) in Hle.
  replace (Z.pos (Pos.size p)) with (Z.succ (Z.pos (Pos.size p) - 1)) in Hle by lia.
  rewrite Z.pow_succ_r in Hle by lia. lia.
Qed.

Lemma digits_unique (p : positive) (k : Z) :
  2 ^ (k - 1) <= Zpos p < 2 ^ k -> Zpos (digits2_pos p) = k.
Proof.
  intros [Hlo Hhi]. pose proof (digits_bounds p) as [Dlo Dhi].
  set (d := Zpos (digits2_pos p)) in *.
  assert (Hd : 0 < d) by (unfold d; lia).
  destruct (Z.lt_trichotomy d k) as [Hlt | [Heq | Hgt]]; [| exact Heq |].
  - assert (2 ^ d <= 2 ^ (k - 1)) by (apply Z.pow_le_mono_r; lia). lia.
  - assert (0 <= k).
    { destruct (Z.lt_ge_cases k 0) as [Hneg | ?]; [| lia].
      rewrite (Z.pow_neg_r 2 k Hneg) in Hhi. lia. }
    assert (2 ^ k <= 2 ^ (d - 1)) by (apply Z.pow_le_mono_r; lia). lia.
Qed.

Lemma shr_1_spec (x : shr_record) :
  0 <= shr_m x ->
  shr_m (shr_1 x) = Z.shiftr (shr_m x) 1 /\ shr_r (shr_1 x) = Z.testbit (shr_m x) 0.
Proof.
  destruct x as [m r s]. simpl. intros Hm.
  destruct m as [| [p | p |] | p]; simpl; try lia; split; reflexivity.
Qed.

Lemma iter_shr_spec (p : positive) : forall x : shr_record,
  0 <= shr_m x ->
  shr_m (SpecFloat.iter_pos shr_1 p x) = Z.shiftr (shr_m x) (Zpos p) /\
  shr_r (SpecFloat.iter_pos shr_1 p x) = Z.testbit (shr_m x) (Zpos p - 1).
Proof.
  induction p as [p IH | p IH |]; intros x Hx; cbn [SpecFloat.iter_pos].
  - destruct (shr_1_spec x Hx) as [H1m H1r].
    assert (Hx1 : 0 <= shr_m (shr_1 x)) by (rewrite H1m; apply Z.shiftr_nonneg, Hx).
    destruct (IH (shr_1 x) Hx1) as [H2m H2r].
    assert (Hx2 : 0 <= shr_m (SpecFloat.iter_pos shr_1 p (shr_1 x)))
      by (rewrite H2m; apply Z.shiftr_nonneg, Hx1).
    destruct (IH _ Hx2) as [H3m H3r].
    rewrite H3m, H3r, H2m, H1m. rewrite !Z.shiftr_shiftr by lia.
    split; [f_equal; lia |].
    rewrite Z.shiftr_spec by lia. f_equal. lia.
  - destruct (IH x Hx) as [H2m H2r].
    assert (Hx2 : 0 <= shr_m (SpecFloat.iter_pos shr_1 p x))
      by (rewrite H2m; apply Z.shiftr_nonneg, Hx).
    destruct (IH _ Hx2) as [H3m H3r].
    rewrite H3m, H3r, H2m. rewrite !Z.shiftr_shiftr by lia.
    split; [f_equal; lia |].
    rewrite Z.shiftr_spec by lia. f_equal. lia.
  - apply shr_1_spec, Hx.
Qed.

Lemma shr_fexp_keep (m : positive) (e : Z) (l : location) :
  Zpos (digits2_pos m) <= 53 -> -1074 <= e ->
  shr_fexp 53 1024 (Zpos m) e l = (shr_record_of_loc (Zpos m) l, e).
Proof.
  intros Hd He. unfold shr_fexp, fexp, emin, Zdigits2, shr.
  destruct (Z.max (Zpos (digits2_pos m) + e - 53) (3 - 1024 - 53) - e)
    eqn:Hs; [reflexivity | lia | reflexivity].
Qed.

Lemma shr_fexp_shift (m : positive) (e : Z) (s : positive) (l : location) :
  Zpos (digits2_pos m) - 53 = Zpos s ->
  -1074 <= Zpos (digits2_pos m) + e - 53 ->
  shr_fexp 53 1024 (Zpos m) e l
  = (SpecFloat.iter_pos shr_1 s (shr_record_of_loc (Zpos m) l), e + Zpos s).
Proof.
  intros Hd He. unfold shr_fexp, fexp, emin, Zdigits2, shr.
  replace (Z.max (Zpos (digits2_pos m) + e - 53) (3 - 1024 - 53) - e)
    with (Zpos s) by lia.
  reflexivity.
Qed.

(** A mantissa of at most 53 digits needs no rounding. *)
Lemma round_keep (sx : bool) (m : positive) (e : Z) :
  Zpos (digits2_pos m) <= 53 -> -1074 <= e <= 971 ->
  binary_round_aux 53 1024 sx (Zpos m) e loc_Exact = S754_finite sx m e.
Proof.
  intros Hd He. unfold binary_round_aux.
  rewrite shr_fexp_keep by lia. cbn [shr_record_of_loc shr_m loc_of_shr_record round_nearest_even].
  rewrite shr_fexp_keep by lia. cbn [shr_record_of_loc shr_m].
  destruct (Z.leb_spec e (1024 - 53)); [reflexivity | lia].
Qed.

Lemma round_nearest_even_near (x : shr_record) :
  shr_m x <= round_nearest_even (shr_m x) (loc_of_shr_record x) <= shr_m x + 1
  /\ (shr_r x = false ->
      round_nearest_even (shr_m x) (loc_of_shr_record x) = shr_m x).
Proof.
  destruct x as [m [|] [|]]; cbn; try destruct (Z.even m); split; (lia || trivial || discriminate).
Qed.

(** A mantissa of [53 + s] digits is cut to 53 digits, [s] bits being
    rounded away; when rounding up carries into a 54th digit the exponent
    grows by one more. *)
Lemma round_shift (sx : bool) (P : positive) (E : Z) (s : positive) :
  Zpos (digits2_pos P) - 53 = Zpos s ->
  -1074 <= E + Zpos s -> E + Zpos s + 1 <= 971 ->
  exists (m3 : positive) (e3 : Z),
    binary_round_aux 53 1024 sx (Zpos P) E loc_Exact = S754_finite sx m3 e3 /\
    ((e3 = E + Zpos s /\ 2 ^ 52 <= Zpos m3 < 2 ^ 53 /\
      (Z.testbit (Zpos P) (Zpos s - 1) = false ->
       Zpos m3 = Z.shiftr (Zpos P) (Zpos s)))
     \/ (e3 = E + Zpos s + 1 /\ Zpos m3 = 2 ^ 52 /\
         Z.testbit (Zpos P) (Zpos s - 1) = true)).
Proof.
  intros Hd Hlo Hhi. unfold binary_round_aux.
  rewrite (shr_fexp_shift P E s loc_Exact Hd) by lia.
  cbn [shr_record_of_loc].
  destruct (iter_shr_spec s (Build_shr_record (Zpos P) false false))
    as [Hm Hr]; [simpl; lia |].
  cbn [shr_m] in Hm, Hr.
  destruct (round_nearest_even_near
              (SpecFloat.iter_pos shr_1 s (Build_shr_record (Zpos P) false false)))
    as [Hnear Hexact].
  set (m2 := round_nearest_even _ _) in *.
  rewrite Hr in Hexact. rewrite Hm in Hnear, Hexact.
  assert (Hm1 : 2 ^ 52 <= Z.shiftr (Zpos P) (Zpos s) < 2 ^ 53).
  { pose proof (digits_bounds P) as [Dlo Dhi].
    replace (Zpos (digits2_pos P)) with (53 + Zpos s) in Dhi by lia.
    replace (Zpos (digits2_pos P) - 1) with (52 + Zpos s) in Dlo by lia.
    rewrite Z.pow_add_r in Dlo, Dhi by lia.
    rewrite Z.shiftr_div_pow2 by lia.
    assert (0 < 2 ^ Zpos s) by (apply Z.pow_pos_nonneg; lia).
    split.
    - apply Z.div_le_lower_bound; lia.
    - apply Z.div_lt_upper_bound; lia. }
  clearbody m2.
  destruct m2 as [| p2 | p2]; try lia.
  destruct (Z.lt_ge_cases (Zpos p2) (2 ^ 53)) as [Hsmall | Hbig].
  - assert (Hd2 : Zpos (digits2_pos p2) = 53) by (apply digits_unique; lia).
    rewrite shr_fexp_keep by lia. cbn [shr_record_of_loc shr_m].
    destruct (Z.leb_spec (E + Zpos s) (1024 - 53)); [| lia].
    exists p2, (E + Zpos s). split; [reflexivity |]. left.
    split; [reflexivity |]. split; [lia | exact Hexact].
  - assert (Hp2 : Zpos p2 = 2 ^ 53) by lia.
    assert (p2 = 9007199254740992%positive) as -> by lia.
    rewrite (shr_fexp_shift _ (E + Zpos s) 1 loc_Exact) by (cbn; lia).
    cbn [shr_record_of_loc SpecFloat.iter_pos shr_1 shr_m].
    destruct (Z.leb_spec (E + Zpos s + 1) (1024 - 53)); [| lia].
    exists 4503599627370496%positive, (E + Zpos s + 1).
    split; [reflexivity |]. right.
    split; [reflexivity |]. split; [reflexivity |].
    destruct (Z.testbit (Zpos P) (Zpos s - 1)); [reflexivity |].
    specialize (Hexact eq_refl). lia.
Qed.

Lemma iter_xO_pow (p k : positive) :
  Zpos (Pos.iter xO p k) = Zpos p * 2 ^ Zpos k.
Proof.
  rewrite <- Z.shiftl_mul_pow2 by lia.
  change (Z.shiftl (Zpos p) (Zpos k)) with (Pos.iter (Z.mul 2) (Zpos p) k).
  apply (Pos.iter_swap_gen _ _ Zpos xO (Z.mul 2)). reflexivity.
Qed.

(** The conversion of a positive integer below 2^53 is exact and
    normalised: a 53-digit mantissa [m] and an exponent [e] with
    [m = n * 2^(-e)]. *)
Lemma of_u64_pos (n : Z) :
  0 < n < 2 ^ 53 ->
  exists (m : positive) (e : Z),
    of_u64 n = S754_finite false m e /\
    Zpos (digits2_pos m) = 53 /\ -52 <= e <= 0 /\
    Zpos m = n * 2 ^ (- e) /\ 2 ^ (52 + e) <= n < 2 ^ (53 + e).
Proof.
  intros Hn. destruct n as [| p | p]; try lia.
  unfold of_u64, dbl, binary_normalize, binary_round.
  pose proof (digits_bounds p) as [Dlo Dhi].
  set (d := Zpos (digits2_pos p)) in *.
  assert (Hd1 : 1 <= d) by (unfold d; lia).
  assert (Hd53 : d <= 53).
  { destruct (Z.le_gt_cases d 53) as [? | Hgt]; [assumption |].
    assert (2 ^ 53 <= 2 ^ (d - 1)) by (apply Z.pow_le_mono_r; lia). lia. }
  unfold fexp, emin. unfold shl_align.
  replace (Z.max (d + 0 - 53) (3 - 1024 - 53) - 0) with (d - 53) by lia.
  destruct (d - 53) as [| k | k] eqn:Hk; try lia.
  - rewrite round_keep by (fold d; lia).
    exists p, 0. split; [reflexivity |]. fold d.
    replace (52 + 0) with (d - 1) by lia. replace (53 + 0) with d by lia.
    repeat split; try lia.
  - replace (Z.max (d + 0 - 53) (3 - 1024 - 53)) with (d - 53) by lia.
    assert (Hm : Zpos (Pos.iter xO p k) = Zpos p * 2 ^ Zpos k)
      by apply iter_xO_pow.
    assert (Hpow : 2 ^ (d - 1) * 2 ^ Zpos k = 2 ^ 52)
      by (rewrite <- Z.pow_add_r by lia; f_equal; lia).
    assert (Hpow' : 2 ^ d * 2 ^ Zpos k = 2 ^ 53)
      by (rewrite <- Z.pow_add_r by lia; f_equal; lia).
    assert (Hk0 : 0 < 2 ^ Zpos k) by (apply Z.pow_pos_nonneg; lia).
    assert (Hdm : Zpos (digits2_pos (Pos.iter xO p k)) = 53).
    { apply digits_unique. rewrite Hm. change (53 - 1) with 52. nia. }
    rewrite round_keep by lia.
    exists (Pos.iter xO p k), (d - 53).
    split; [reflexivity |]. split; [exact Hdm |]. split; [lia |].
    replace (- (d - 53)) with (Zpos k) by lia.
    replace (52 + (d - 53)) with (d - 1) by lia.
    replace (53 + (d - 53)) with d by lia.
    repeat split; try lia.
Qed.

Lemma dbl_one : dbl 1 0 = S754_finite false 4503599627370496 (-52).
Proof. reflexivity. Qed.

Lemma dbl_zero : dbl 0 0 = S754_zero false.
Proof. reflexivity. Qed.

Lemma compare_same_exp (m1 m2 : positive) (e : Z) :
  SFcompare (S754_finite false m1 e) (S754_finite false m2 e)
  = Some (Z.compare (Zpos m1) (Zpos m2)).
Proof. unfold SFcompare. rewrite Z.compare_refl. reflexivity. Qed.

Lemma compare_lower_exp (m1 m2 : positive) (e1 e2 : Z) :
  e1 < e2 ->
  SFcompare (S754_finite false m1 e1) (S754_finite false m2 e2) = Some Lt.
Proof.
  intros Hlt. unfold SFcompare.
  rewrite (proj2 (Z.compare_lt_iff e1 e2) Hlt). reflexivity.
Qed.

Lemma finite_le_one (m : positive) (e : Z) :
  e < -52 \/ (e = -52 /\ Zpos m <= 2 ^ 52) ->
  SFleb (S754_finite false m e) (dbl 1 0) = true.
Proof.
  rewrite dbl_one. unfold SFleb. intros [Hlt | [-> Hm]].
  - rewrite compare_lower_exp by exact Hlt. reflexivity.
  - rewrite compare_same_exp.
    destruct (Z.compare_spec (Zpos m) 4503599627370496) as [_ | _ | Hgt];
      try reflexivity.
    lia.
Qed.

Lemma finite_lt_one (m : positive) (e : Z) :
  e < -52 -> SFltb (S754_finite false m e) (dbl 1 0) = true.
Proof.
  rewrite dbl_one. unfold SFltb. intros Hlt.
  rewrite compare_lower_exp by exact Hlt. reflexivity.
Qed.

(** Multiplication by a power of two keeps the mantissa. *)
Lemma mul_pow2 (m : positive) (e ec : Z) :
  Zpos (digits2_pos m) = 53 -> -1074 <= e + ec + 52 <= 970 ->
  dmul (S754_finite false m e) (S754_finite false 4503599627370496 ec)
  = S754_finite false m (e + ec + 52).
Proof.
  intros Hd He. unfold dmul, SFmul. cbn [xorb].
  pose proof (digits_bounds m) as [Dlo Dhi]. rewrite Hd in Dlo, Dhi.
  change (53 - 1) with 52 in Dlo.
  assert (HP : Zpos (m * 4503599627370496) = Zpos m * 2 ^ 52) by reflexivity.
  assert (HD : Zpos (digits2_pos (m * 4503599627370496)) = 105).
  { apply digits_unique. rewrite HP. change (105 - 1) with (52 + 52).
    change 105 with (53 + 52). rewrite !Z.pow_add_r by lia. nia. }
  assert (Hbit : Z.testbit (Zpos (m * 4503599627370496)) (52 - 1) = false).
  { rewrite HP. apply Z.mul_pow2_bits_low. lia. }
  destruct (round_shift false (m * 4503599627370496) (e + ec) 52)
    as (m3 & e3 & -> & [(-> & _ & Hm3) | (_ & _ & Hcontra)]); try lia.
  - specialize (Hm3 Hbit). rewrite HP in Hm3.
    rewrite Z.shiftr_div_pow2, Z.div_mul in Hm3 by lia.
    f_equal; lia.
  - change (Z.pos 52 - 1) with (52 - 1) in Hcontra. congruence.
Qed.

(** Multiplication by [1.0/9007199254740991.0], the double
    [(2^52 + 1) * 2^-105]: the product of a double below 2^53 does not
    exceed one. *)
Lemma mul_c1 (m : positive) (e : Z) :
  Zpos (digits2_pos m) = 53 -> -52 <= e <= 0 ->
  exists (m3 : positive) (e3 : Z),
    dmul (S754_finite false m e) (S754_finite false 4503599627370497 (-105))
    = S754_finite false m3 e3 /\
    (e3 < -52 \/ (e3 = -52 /\ Zpos m3 <= 2 ^ 52)).
Proof.
  intros Hd He. unfold dmul, SFmul. cbn [xorb].
  pose proof (digits_bounds m) as [Dlo Dhi]. rewrite Hd in Dlo, Dhi.
  change (53 - 1) with 52 in Dlo.
  assert (HP : Zpos (m * 4503599627370497) = Zpos m * 4503599627370497)
    by reflexivity.
  change (2 ^ 52) with 4503599627370496 in *.
  change (2 ^ 53) with 9007199254740992 in *.
  destruct (Z.lt_ge_cases (Zpos (m * 4503599627370497)) (2 ^ 105))
    as [Hsmall | Hbig].
  - assert (HD : Zpos (digits2_pos (m * 4503599627370497)) = 105).
    { apply digits_unique. split; [| exact Hsmall].
      rewrite HP. change (2 ^ (105 - 1)) with 20282409603651670423947251286016.
      lia. }
    destruct (round_shift false (m * 4503599627370497) (e + -105) 52)
      as (m3 & e3 & -> & [(-> & _ & _) | (-> & Hm3 & _)]); try lia;
      exists m3; eexists; (split; [reflexivity |]); lia.
  - assert (HD : Zpos (digits2_pos (m * 4503599627370497)) = 106).
    { apply digits_unique. split; [exact Hbig |].
      rewrite HP. change (2 ^ 106) with 81129638414606681695789005144064.
      lia. }
    change (2 ^ 105) with 40564819207303340847894502572032 in Hbig.
    assert (Hbit : Z.testbit (Zpos (m * 4503599627370497)) (53 - 1) = false).
    { apply Z.testbit_false; [lia |]. rewrite HP in *.
      change (2 ^ (53 - 1)) with 4503599627370496.
      replace (Zpos m * 4503599627370497 / 4503599627370496)
        with 9007199254740992; [reflexivity |].
      apply (Z.div_unique_pos _ _ _
               (Zpos m * 4503599627370497 - 40564819207303340847894502572032));
        lia. }
    destruct (round_shift false (m * 4503599627370497) (e + -105) 53)
      as (m3 & e3 & -> & [(-> & _ & Hm3) | (_ & _ & Hcontra)]); try lia.
    + specialize (Hm3 Hbit). rewrite HP in Hm3.
      rewrite Z.shiftr_div_pow2 in Hm3 by lia.
      change (2 ^ Z.pos 53) with 9007199254740992 in Hm3.
      assert (Zpos m * 4503599627370497 / 9007199254740992 = 4503599627370496).
      { symmetry.
        apply (Z.div_unique_pos _ _ _
                 (Zpos m * 4503599627370497 - 40564819207303340847894502572032));
          lia. }
      exists m3; eexists; (split; [reflexivity |]); lia.
    + change (Z.pos 53 - 1) with (53 - 1) in Hcontra. congruence.
Qed.

Lemma dbl_half : dbl 1 (-1) = S754_finite false 4503599627370496 (-53).
Proof. reflexivity. Qed.

(** Adding 0.5 to the conversion of a positive integer below 2^52 is
    exact; the sum is a normalised double below 2^52. *)
Lemma add_half (n : Z) :
  0 < n < 2 ^ 52 ->
  exists (m : positive) (e : Z),
    dadd (of_u64 n) (dbl 1 (-1)) = S754_finite false m e /\
    Zpos (digits2_pos m) = 53 /\ -52 <= e <= -1.
Proof.
  intros Hn.
  destruct (of_u64_pos n) as (mn & en & -> & Hdn & Hen & Hmn & Hlo & Hhi);
    [change (2 ^ 53) with (2 ^ 52 * 2); lia |].
  assert (Hneg : en <= -1).
  { destruct (Z.le_gt_cases en (-1)) as [? | Hgt]; [assumption |].
    assert (2 ^ 52 <= 2 ^ (52 + en)) by (apply Z.pow_le_mono_r; lia). lia. }
  rewrite dbl_half. unfold dadd, SFadd.
  replace (Z.min en (-53)) with (-53) by lia.
  unfold shl_align.
  change (-53 - -53) with 0. cbn [fst cond_Zopp].
  destruct (-53 - en) as [| k | k] eqn:Hk; try lia. cbn [fst].
  assert (Hsum : Zpos (Pos.iter xO mn k + 4503599627370496)
                 = (2 * n + 1) * 2 ^ 52).
  { rewrite Pos2Z.inj_add, iter_xO_pow, Hmn.
    replace (Zpos k) with (53 + en) by lia.
    rewrite <- Z.mul_assoc, <- Z.pow_add_r by lia.
    replace (- en + (53 + en)) with 53 by lia.
    change (2 ^ 53) with (2 * 2 ^ 52). change (Zpos 4503599627370496) with (2 ^ 52).
    ring. }
  change (Zpos (Pos.iter xO mn k) + Zpos 4503599627370496)
    with (Zpos (Pos.iter xO mn k + 4503599627370496)).
  set (psum := (Pos.iter xO mn k + 4503599627370496)%positive) in *.
  unfold binary_normalize, binary_round.
  assert (HD : Zpos (digits2_pos psum) = en + 106).
  { apply digits_unique. rewrite Hsum.
    replace (en + 106 - 1) with (52 + en + 1 + 52) by lia.
    replace (en + 106) with (53 + en + 1 + 52) by lia.
    rewrite !(Z.pow_add_r _ _ 52), !(Z.pow_add_r _ _ 1) by lia.
    change (2 ^ 1) with 2.
    assert (0 < 2 ^ 52) by reflexivity. nia. }
  rewrite HD. unfold fexp, emin, shl_align.
  replace (Z.max (en + 106 + -53 - 53) (3 - 1024 - 53) - -53) with (Zpos k)
    by lia.
  assert (Hbit : Z.testbit (Zpos psum) (Zpos k - 1) = false).
  { rewrite Hsum. apply Z.mul_pow2_bits_low. lia. }
  destruct (round_shift false psum (-53) k)
    as (m3 & e3 & -> & [(-> & Hm3 & _) | (_ & _ & Hcontra)]); try lia.
  - exists m3, (-53 + Zpos k). split; [reflexivity |].
    split; [apply digits_unique; exact Hm3 | lia].
  - congruence.
Qed.

End FloatFacts.

(** * MT19937-64: the draws as doubles *)

Section DrawFacts.

Lemma tempered_u64 (w : Z) : is_u64 w -> is_u64 (tempered w).
Proof.
  intros Hw. unfold tempered. cbv zeta.
  repeat first
    [ apply lxor_u64 | apply land_u64; [| lia] | apply shr64_u64; [| lia]
    | apply wrap64_range | exact Hw ].
Qed.

Lemma twisted_u64 (src cur nxt : Z) :
  is_u64 src -> is_u64 cur -> is_u64 nxt -> is_u64 (twisted src cur nxt).
Proof.
  intros Hs Hc Hn. unfold twisted.
  apply lxor_u64; [apply lxor_u64; [exact Hs |] | apply wrap64_range].
  apply shr64_u64; [| lia].
  apply lor_u64; apply land_u64; (assumption || (unfold UM, LM; lia)).
Qed.

Lemma get_u64 (a : list Z) (k : Z) : Forall is_u64 a -> is_u64 (Arr.get a k).
Proof.
  intros Ha. unfold Arr.get.
  destruct (a !! Z.to_nat k) as [x |] eqn:Hx.
  - rewrite (list_lookup_total_correct a _ x Hx).
    exact (proj1 (Forall_lookup is_u64 a) Ha _ _ Hx).
  - rewrite list_lookup_total_alt, Hx. unfold is_u64, modulus. simpl. lia.
Qed.

Lemma regenerated_u64 (words : list Z) (k : Z) :
  Forall is_u64 words -> is_u64 (regenerated words k).
Proof.
  intros Hw. unfold regenerated, regenerated_last, regenerated_high,
    regenerated_low.
  destruct (k <? 156); [| destruct (k <? 311)];
    repeat first [apply twisted_u64 | apply get_u64; exact Hw].
Qed.

Lemma genrand64_int64_value (c : mt19937_64) :
  fst (genrand64_int64 c)
  = tempered (mt_at (if NN <=? mti c then regenerate c else c)
                    (mti (if NN <=? mti c then regenerate c else c))).
Proof. reflexivity. Qed.

(** The value drawn is an [unsigned long long]. *)
Lemma genrand64_int64_u64 (c : mt19937_64) :
  MT.wf c -> words_u64 c -> is_u64 (fst (genrand64_int64 c)).
Proof.
  intros W Hu. rewrite genrand64_int64_value. apply tempered_u64.
  destruct (NN <=? mti c).
  - destruct (regenerate_words c W) as (_ & -> & Hk).
    unfold mt_at. rewrite Hk by lia. apply regenerated_u64, Hu.
  - unfold mt_at. apply get_u64, Hu.
Qed.

Lemma forallb_u64 (a : list Z) : forallb is_u64b a = true -> Forall is_u64 a.
Proof.
  intros H. apply Forall_forall. intros x Hx.
  apply list_elem_of_In in Hx.
  pose proof (proj1 (forallb_forall is_u64b a) H x Hx) as Hb.
  unfold is_u64b in Hb. apply andb_true_iff in Hb. destruct Hb as [H0 H1].
  unfold is_u64. lia.
Qed.

Lemma c1_value :
  ddiv (dbl 1 0) (dbl 9007199254740991 0)
  = S754_finite false 4503599627370497 (-105).
Proof. reflexivity. Qed.

Lemma c2_value :
  ddiv (dbl 1 0) (dbl 9007199254740992 0)
  = S754_finite false 4503599627370496 (-105).
Proof. reflexivity. Qed.

Lemma c3_value :
  ddiv (dbl 1 0) (dbl 4503599627370496 0)
  = S754_finite false 4503599627370496 (-104).
Proof. reflexivity. Qed.

(** [(draw >> 11) * (1.0/9007199254740991.0)] lies in [0, 1]. *)
Lemma real1_range (r : Z) :
  is_u64 r ->
  let x := dmul (of_u64 (shr64 r 11)) (ddiv (dbl 1 0) (dbl 9007199254740991 0)) in
  SFleb (dbl 0 0) x = true /\ SFleb x (dbl 1 0) = true.
Proof.
  intros Hr. cbv zeta. rewrite c1_value.
  pose proof (shr64_bound r 11 Hr ltac:(lia)) as Hn.
  change (2 ^ (64 - 11)) with (2 ^ 53) in Hn.
  destruct (Z.eq_dec (shr64 r 11) 0) as [-> | Hnz].
  - split; reflexivity.
  - destruct (of_u64_pos (shr64 r 11)) as (m & e & -> & Hd & He & _);
      [lia |].
    destruct (mul_c1 m e Hd He) as (m3 & e3 & -> & Hle).
    split; [reflexivity | apply finite_le_one, Hle].
Qed.

(** [(draw >> 11) * (1.0/9007199254740992.0)] lies in [0, 1). *)
Lemma real2_range (r : Z) :
  is_u64 r ->
  let x := dmul (of_u64 (shr64 r 11)) (ddiv (dbl 1 0) (dbl 9007199254740992 0)) in
  SFleb (dbl 0 0) x = true /\ SFltb x (dbl 1 0) = true.
Proof.
  intros Hr. cbv zeta. rewrite c2_value.
  pose proof (shr64_bound r 11 Hr ltac:(lia)) as Hn.
  change (2 ^ (64 - 11)) with (2 ^ 53) in Hn.
  destruct (Z.eq_dec (shr64 r 11) 0) as [-> | Hnz].
  - split; reflexivity.
  - destruct (of_u64_pos (shr64 r 11)) as (m & e & -> & Hd & He & _);
      [lia |].
    rewrite (mul_pow2 m e (-105) Hd) by lia.
    split; [reflexivity | apply finite_lt_one; lia].
Qed.

(** [((draw >> 12) + 0.5) * (1.0/4503599627370496.0)] lies in (0, 1). *)
Lemma real3_range (r : Z) :
  is_u64 r ->
  let x := dmul (dadd (of_u64 (shr64 r 12)) (dbl 1 (-1)))
                (ddiv (dbl 1 0) (dbl 4503599627370496 0)) in
  SFltb (dbl 0 0) x = true /\ SFltb x (dbl 1 0) = true.
Proof.
  intros Hr. cbv zeta. rewrite c3_value.
  pose proof (shr64_bound r 12 Hr ltac:(lia)) as Hn.
  change (2 ^ (64 - 12)) with (2 ^ 52) in Hn.
  destruct (Z.eq_dec (shr64 r 12) 0) as [-> | Hnz].
  - split; reflexivity.
  - destruct (add_half (shr64 r 12)) as (m & e & -> & Hd & He); [lia |].
    rewrite (mul_pow2 m e (-104) Hd) by lia.
    split; [reflexivity | apply finite_lt_one; lia].
Qed.

(** C9: on every structure whose words are 64-bit, [genrand64_real1]
    returns a double in [0, 1], [genrand64_real2] one in [0, 1) and
    [genrand64_real3] one in (0, 1), the three being computed in binary64
    arithmetic as [(draw >> 11) * (1.0/9007199254740991.0)],
    [(draw >> 11) * (1.0/9007199254740992.0)] and
    [((draw >> 12) + 0.5) * (1.0/4503599627370496.0)]. *)
Theorem real_draw_ranges (c : mt19937_64) :
  MT.wf c -> words_u64 c ->
  (SFleb (dbl 0 0) (fst (genrand64_real1 c)) = true /\
   SFleb (fst (genrand64_real1 c)) (dbl 1 0) = true) /\
  (SFleb (dbl 0 0) (fst (genrand64_real2 c)) = true /\
   SFltb (fst (genrand64_real2 c)) (dbl 1 0) = true) /\
  (SFltb (dbl 0 0) (fst (genrand64_real3 c)) = true /\
   SFltb (fst (genrand64_real3 c)) (dbl 1 0) = true).
Proof.
  intros W Hu. pose proof (genrand64_int64_u64 c W Hu) as Hr.
  unfold genrand64_real1, genrand64_real2, genrand64_real3.
  destruct (genrand64_int64 c) as [r c']. cbn [fst] in Hr |- *.
  split; [exact (real1_range r Hr) |].
  split; [exact (real2_range r Hr) | exact (real3_range r Hr)].
Qed.

Lemma real_draw_ranges_witness :
  MT.wf (init_genrand64 blank 5489) /\
  words_u64 (init_genrand64 blank 5489) /\
  SFleb (fst (genrand64_real1 (init_genrand64 blank 5489))) (dbl 1 0) = true /\
  SFltb (fst (genrand64_real2 (init_genrand64 blank 5489))) (dbl 1 0) = true /\
  SFltb (dbl 0 0) (fst (genrand64_real3 (init_genrand64 blank 5489))) = true.
Proof.
  assert (W : MT.wf (init_genrand64 blank 5489)) by (vm_compute; reflexivity).
  assert (Hu : words_u64 (init_genrand64 blank 5489))
    by (apply forallb_u64; vm_compute; reflexivity).
  split; [exact W | split; [exact Hu |]].
  destruct (real_draw_ranges (init_genrand64 blank 5489) W Hu)
    as ((_ & H1) & (_ & H2) & (H3 & _)).
  split; [exact H1 | split; [exact H2 | exact H3]].
Defined.

End DrawFacts.

Import MTDerived.

(** * Scalar and array seeding, further *)

Section SeedMore.

Lemma forall_get (P : Z -> Prop) (n : nat) (a : list Z) :
  length a = n -> (forall k, 0 <= k < Z.of_nat n -> P (Arr.get a k)) ->
  Forall P a.
Proof.
  intros Hlen Hget. apply Forall_lookup. intros i x Hx.
  pose proof (lookup_lt_Some a i x Hx) as Hi.
  specialize (Hget (Z.of_nat i) ltac:(lia)). unfold Arr.get in Hget.
  rewrite Nat2Z.id, (list_lookup_total_correct a i x Hx) in Hget.
  exact Hget.
Qed.

Lemma set_u64 (a : list Z) (i v : Z) :
  Forall is_u64 a -> is_u64 v -> Forall is_u64 (Arr.set a i v).
Proof. intros Ha Hv. unfold Arr.set. apply Forall_insert; assumption. Qed.

Lemma words_u64_intro (c : mt19937_64) :
  MT.wf c -> (forall k, 0 <= k < 312 -> is_u64 (mt_at c k)) -> words_u64 c.
Proof. intros W H. exact (forall_get is_u64 312 (mt c) W H). Qed.

(** The words below [mti] obey the seeding recurrence, and the loop keeps
    it so. *)
Lemma init_loop_recurrence (fuel : nat) : forall c : mt19937_64,
  MT.wf c -> 1 <= mti c <= NN ->
  (forall i, 1 <= i < mti c -> mt_at c i = seed_next (mt_at c (i - 1)) i) ->
  forall i, 1 <= i < mti (init_loop fuel c) ->
    mt_at (init_loop fuel c) i = seed_next (mt_at (init_loop fuel c) (i - 1)) i.
Proof.
  induction fuel as [| fuel IH]; intros c W Hr Hrec; cbn [init_loop];
    [exact Hrec |].
  destruct (Z.ltb_spec (mti c) NN) as [Hlt | Hge]; [| exact Hrec].
  assert (Hm : mti (init_body c) = mti c + 1) by (apply init_body_mti; lia).
  apply IH; [apply init_body_wf, W | lia |].
  intros i Hi. rewrite Hm in Hi.
  destruct (Z.eq_dec i (mti c)) as [-> | Hne].
  - rewrite (init_body_at c W) by lia.
    rewrite init_body_below by lia. reflexivity.
  - rewrite !init_body_below by lia. apply Hrec. lia.
Qed.

Lemma init_genrand64_recurrence (c : mt19937_64) (seed : Z) :
  MT.wf c ->
  forall i, 1 <= i < 312 ->
    mt_at (init_genrand64 c seed) i
    = seed_next (mt_at (init_genrand64 c seed) (i - 1)) i.
Proof.
  intros W i Hi. unfold init_genrand64.
  apply init_loop_recurrence.
  - unfold set_mti, set_mt, MT.wf; cbn [mt]. rewrite length_set. exact W.
  - unfold set_mti, NN; cbn [mti]. lia.
  - unfold set_mti; cbn [mti]. intros k Hk. lia.
  - rewrite init_loop_mti; unfold set_mti, NN; cbn [mti]; lia.
Qed.

Lemma init_genrand64_u64 (c : mt19937_64) (seed : Z) :
  MT.wf c -> is_u64 seed -> words_u64 (init_genrand64 c seed).
Proof.
  intros W Hs.
  apply words_u64_intro; [apply init_genrand64_wf, W |].
  intros k Hk.
  destruct (Z.eq_dec k 0) as [-> | Hne].
  - rewrite init_genrand64_first by exact W. exact Hs.
  - rewrite init_genrand64_recurrence by (trivial; lia).
    apply wrap64_range.
Qed.

Lemma seed_next_wrap (prev i : Z) :
  seed_next prev i
  = (6364136223846793005 * Z.lxor prev (Z.shiftr prev 62) + i) mod 2 ^ 64.
Proof.
  unfold seed_next, add64, mul64, wrap64, shr64, modulus.
  apply Z.add_mod_idemp_l. lia.
Qed.

(** X1: after [init_genrand64] the first word is the seed, every later
    word is [6364136223846793005 * (mt[i-1] ^ (mt[i-1] >> 62)) + i] modulo
    2^64 of the word before it, and [mti] is 312. *)
Theorem init_genrand64_words (c : mt19937_64) (seed : Z) :
  MT.wf c ->
  mt_at (init_genrand64 c seed) 0 = seed /\
  (forall i, 1 <= i < 312 ->
     mt_at (init_genrand64 c seed) i
     = (6364136223846793005
        * Z.lxor (mt_at (init_genrand64 c seed) (i - 1))
                 (Z.shiftr (mt_at (init_genrand64 c seed) (i - 1)) 62)
        + i) mod 2 ^ 64) /\
  mti (init_genrand64 c seed) = 312.
Proof.
  intros W. split; [apply init_genrand64_first, W |].
  split; [| apply init_genrand64_mti].
  intros i Hi. rewrite init_genrand64_recurrence by assumption.
  apply seed_next_wrap.
Qed.

Lemma init_genrand64_words_witness :
  MT.wf blank /\
  mt_at (init_genrand64 blank 5489) 0 = 5489 /\
  mt_at (init_genrand64 blank 5489) 1
  = (6364136223846793005 * Z.lxor 5489 (Z.shiftr 5489 62) + 1) mod 2 ^ 64.
Proof.
  assert (W : MT.wf blank) by reflexivity.
  split; [exact W |].
  destruct (init_genrand64_words blank 5489 W) as (H0 & Hrec & _).
  split; [exact H0 |].
  rewrite (Hrec 1) by lia. change (1 - 1) with 0. rewrite H0. reflexivity.
Defined.

(** X2: scalar seeding overwrites everything: the structure it leaves does
    not depend on what the structure held before, has 312 words, each a
    64-bit word; the same holds for [init_genrand64_fromtime], whose result
    depends on the clock reading alone. *)
Theorem init_genrand64_resets (c1 c2 : mt19937_64) (seed : Z) :
  MT.wf c1 -> MT.wf c2 -> is_u64 seed ->
  init_genrand64 c1 seed = init_genrand64 c2 seed /\
  init_genrand64_fromtime c1 seed = init_genrand64_fromtime c2 seed /\
  MT.wf (init_genrand64 c1 seed) /\ words_u64 (init_genrand64 c1 seed).
Proof.
  intros W1 W2 Hs. unfold init_genrand64_fromtime.
  split; [apply init_genrand64_fresh; assumption |].
  split; [apply init_genrand64_fresh; assumption |].
  split; [apply init_genrand64_wf, W1 | apply init_genrand64_u64; assumption].
Qed.

Lemma init_genrand64_resets_witness :
  MT.wf blank /\ MT.wf drawn_once /\ is_u64 5489 /\
  init_genrand64 blank 5489 = init_genrand64 drawn_once 5489.
Proof.
  assert (W1 : MT.wf blank) by reflexivity.
  assert (W2 : MT.wf drawn_once) by (vm_compute; reflexivity).
  assert (Hs : is_u64 5489) by (unfold is_u64, modulus; lia).
  split; [exact W1 | split; [exact W2 | split; [exact Hs |]]].
  exact (proj1 (init_genrand64_resets blank drawn_once 5489 W1 W2 Hs)).
Defined.

(** X3: scalar seeding never leaves the array all zero, not even for the
    seed 0: one of the first two words is not zero. *)
Theorem init_genrand64_not_all_zero (c : mt19937_64) (seed : Z) :
  MT.wf c ->
  mt_at (init_genrand64 c seed) 0 <> 0 \/ mt_at (init_genrand64 c seed) 1 <> 0.
Proof.
  intros W. destruct (Z.eq_dec seed 0) as [-> | Hnz].
  - right. rewrite init_genrand64_recurrence by (trivial; lia).
    change (1 - 1) with 0. rewrite init_genrand64_first by exact W.
    vm_compute. discriminate.
  - left. rewrite init_genrand64_first by exact W. exact Hnz.
Qed.

Lemma init_genrand64_not_all_zero_witness :
  MT.wf blank /\
  (mt_at (init_genrand64 blank 0) 0 <> 0 \/
   mt_at (init_genrand64 blank 0) 1 <> 0).
Proof.
  assert (W : MT.wf blank) by reflexivity.
  split; [exact W | exact (init_genrand64_not_all_zero blank 0 W)].
Defined.

(** The first loop of array seeding reads the key at [j] only, and [j]
    stays below [key_length]. *)
Lemma pass1_body_keys (k1 k2 : list Z) (key_length : Z) (st : cursor) :
  0 <= cur_j st < key_length ->
  (forall j, 0 <= j < key_length -> Arr.get k1 j = Arr.get k2 j) ->
  pass1_body k1 key_length st = pass1_body k2 key_length st.
Proof.
  destruct st as [[c i] j]. unfold cur_j; cbn [snd]. intros Hj Hag.
  unfold pass1_body. rewrite (Hag j Hj). reflexivity.
Qed.

Lemma pass1_keys (k1 k2 : list Z) (key_length : Z) (n : nat) :
  forall st : cursor,
  1 <= cur_i st <= 311 -> 0 <= cur_j st < key_length -> key_length < 2 ^ 64 ->
  (forall j, 0 <= j < key_length -> Arr.get k1 j = Arr.get k2 j) ->
  pass1 n k1 key_length st = pass1 n k2 key_length st.
Proof.
  induction n as [| n IH]; intros st Hi Hj HL Hag; [reflexivity |].
  cbn [pass1]. rewrite (pass1_body_keys k1 k2 key_length st Hj Hag).
  destruct (pass1_body_spec k2 key_length st Hi Hj HL) as (_ & _ & Bi & Bj).
  apply IH; trivial.
  - rewrite Bi. pose proof (Z.mod_pos_bound (cur_i st) 311). lia.
  - rewrite Bj. apply Z.mod_pos_bound. lia.
Qed.

(** X4: array seeding reads the key at the positions below [key_length]
    only: two keys that agree there seed the same structure, whatever
    follows in either. *)
Theorem init_by_array64_key_prefix (c : mt19937_64) (k1 k2 : list Z)
    (key_length : Z) :
  0 < key_length < 2 ^ 64 ->
  (forall j, 0 <= j < key_length -> Arr.get k1 j = Arr.get k2 j) ->
  init_by_array64 c k1 key_length = init_by_array64 c k2 key_length.
Proof.
  intros HL Hag. unfold init_by_array64, after_pass2, after_pass1.
  rewrite (pass1_keys k1 k2 key_length); trivial;
    unfold cur_i, cur_j; cbn [fst snd]; lia.
Qed.

Lemma init_by_array64_key_prefix_witness :
  0 < 4 < 2 ^ 64 /\
  init_by_array64 blank reference_key 4
  = init_by_array64 blank (reference_key ++ [7; 8; 9]) 4.
Proof.
  assert (HL : 0 < 4 < 2 ^ 64) by lia.
  split; [exact HL |].
  apply (init_by_array64_key_prefix blank reference_key
           (reference_key ++ [7; 8; 9]) 4 HL).
  intros j Hj.
  assert (Hc : j = 0 \/ j = 1 \/ j = 2 \/ j = 3) by lia.
  destruct Hc as [-> | [-> | [-> | ->]]]; reflexivity.
Defined.

Lemma pass1_body_u64 (init_key : list Z) (key_length : Z) (st : cursor) :
  words_u64 (cur_context st) ->
  words_u64 (cur_context (pass1_body init_key key_length st)).
Proof.
  destruct st as [[c i] j]. unfold cur_context, words_u64; cbn [fst].
  intros Hu. unfold pass1_body.
  destruct (NN <=? add64 i 1); cbn [fst]; unfold set_mt; cbn [mt].
  - apply set_u64; [apply set_u64; [exact Hu | apply wrap64_range] |].
    unfold mt_at; cbn [mt]. apply get_u64, set_u64; [exact Hu |].
    apply wrap64_range.
  - apply set_u64; [exact Hu | apply wrap64_range].
Qed.

Lemma pass1_u64 (init_key : list Z) (key_length : Z) (n : nat) :
  forall st : cursor,
  words_u64 (cur_context st) ->
  words_u64 (cur_context (pass1 n init_key key_length st)).
Proof.
  induction n as [| n IH]; intros st Hu; [exact Hu |].
  cbn [pass1]. apply IH, pass1_body_u64, Hu.
Qed.

Lemma pass2_body_u64 (st : mt19937_64 * Z) :
  words_u64 (fst st) -> words_u64 (fst (pass2_body st)).
Proof.
  destruct st as [c i]. unfold words_u64; cbn [fst].
  intros Hu. unfold pass2_body.
  destruct (NN <=? add64 i 1); cbn [fst]; unfold set_mt; cbn [mt].
  - apply set_u64; [apply set_u64; [exact Hu | apply wrap64_range] |].
    unfold mt_at; cbn [mt]. apply get_u64, set_u64; [exact Hu |].
    apply wrap64_range.
  - apply set_u64; [exact Hu | apply wrap64_range].
Qed.

Lemma pass2_u64 (n : nat) : forall st : mt19937_64 * Z,
  words_u64 (fst st) -> words_u64 (fst (pass2 n st)).
Proof.
  induction n as [| n IH]; intros st Hu; [exact Hu |].
  cbn [pass2]. apply IH, pass2_body_u64, Hu.
Qed.

Lemma init_by_array64_u64 (c : mt19937_64) (init_key : list Z)
    (key_length : Z) :
  MT.wf c -> words_u64 (init_by_array64 c init_key key_length).
Proof.
  intros W. unfold init_by_array64, after_pass2, after_pass1.
  pose proof (init_genrand64_u64 c 19650218 W
                ltac:(unfold is_u64, modulus; lia)) as Hs.
  generalize dependent (init_genrand64 c 19650218). intros seeded Hs.
  pose proof (pass1_u64 init_key key_length
                (Z.to_nat (pass1_count key_length)) (seeded, 1, 0) Hs) as H1.
  destruct (pass1 _ init_key key_length (seeded, 1, 0)) as [[c1 i1] j1].
  unfold cur_context in H1; cbn [fst] in H1.
  pose proof (pass2_u64 (Z.to_nat pass2_count) (c1, i1) H1) as H2.
  destruct (pass2 _ (c1, i1)) as [c2 i2]. cbn [fst] in H2.
  unfold words_u64, set_mt; cbn [mt]. apply set_u64; [exact H2 |].
  apply wrap64_range.
Qed.

(** X5: array seeding with a non-empty key leaves a structure that does
    not depend on what the structure held before, with 312 words, each a
    64-bit word. *)
Theorem init_by_array64_resets (c1 c2 : mt19937_64) (init_key : list Z)
    (key_length : Z) :
  MT.wf c1 -> MT.wf c2 ->
  key_length = Z.of_nat (length init_key) -> 0 < key_length < 2 ^ 64 ->
  init_by_array64 c1 init_key key_length
  = init_by_array64 c2 init_key key_length /\
  MT.wf (init_by_array64 c1 init_key key_length) /\
  words_u64 (init_by_array64 c1 init_key key_length).
Proof.
  intros W1 W2 _ HL.
  split; [apply init_by_array64_fresh; assumption |].
  split; [apply (init_by_array64_spec c1 init_key key_length W1 HL) |].
  apply init_by_array64_u64, W1.
Qed.

Lemma init_by_array64_resets_witness :
  MT.wf blank /\ MT.wf drawn_once /\
  4 = Z.of_nat (length reference_key) /\ 0 < 4 < 2 ^ 64 /\
  init_by_array64 blank reference_key 4
  = init_by_array64 drawn_once reference_key 4.
Proof.
  assert (W1 : MT.wf blank) by reflexivity.
  assert (W2 : MT.wf drawn_once) by (vm_compute; reflexivity).
  assert (HK : 4 = Z.of_nat (length reference_key)) by reflexivity.
  assert (HL : 0 < 4 < 2 ^ 64) by lia.
  split; [exact W1 | split; [exact W2 | split; [exact HK | split; [exact HL |]]]].
  exact (proj1 (init_by_array64_resets blank drawn_once reference_key 4
                  W1 W2 HK HL)).
Defined.

End SeedMore.

(** * Calls of [genrand64_int64] in sequence *)

Section StreamFacts.

Lemma textbook_untwist_u64 (words : list Z) :
  length words = 312%nat -> Forall is_u64 words ->
  Forall is_u64 (textbook_untwist words).
Proof.
  intros Hlen Hu. destruct (textbook_untwist_words words Hlen) as [Hl Hp].
  apply (forall_get is_u64 312 _ Hl). intros k Hk.
  rewrite (Hp k) by lia. apply regenerated_u64, Hu.
Qed.

(** One call, in terms of the textbook recurrence: with the index at 312
    or above the array is replaced by its successor batch and its first
    word is tempered; below 312 the word at the index is tempered. *)
Lemma genrand64_int64_step (c : mt19937_64) :
  MT.wf c -> 0 <= mti c ->
  genrand64_int64 c
  = if 312 <=? mti c
    then (tempered (Arr.get (textbook_untwist (mt c)) 0),
          Context (textbook_untwist (mt c)) 1)
    else (tempered (Arr.get (mt c) (mti c)), Context (mt c) (mti c + 1)).
Proof.
  intros W Hm. rewrite (surjective_pairing (genrand64_int64 c)).
  rewrite genrand64_int64_value, genrand64_int64_context. unfold NN.
  destruct (Z.leb_spec 312 (mti c)) as [Hge | Hlt].
  - destruct (regenerate_words c W) as (_ & Hr & _).
    rewrite Hr. unfold mt_at, set_mti.
    rewrite (regenerate_textbook c W). reflexivity.
  - unfold mt_at, set_mti. rewrite add64_small by lia. reflexivity.
Qed.

Lemma batch_length (words : list Z) (k : nat) :
  length words = 312%nat ->
  length (Nat.iter k textbook_untwist words) = 312%nat.
Proof.
  intros Hlen. induction k as [| k IH]; [exact Hlen |].
  cbn [Nat.iter nat_rect]. apply textbook_untwist_words, IH.
Qed.

Lemma batch_u64 (words : list Z) (k : nat) :
  length words = 312%nat -> Forall is_u64 words ->
  Forall is_u64 (Nat.iter k textbook_untwist words).
Proof.
  intros Hlen Hu. induction k as [| k IH]; [exact Hu |].
  cbn [Nat.iter nat_rect].
  apply textbook_untwist_u64; [apply batch_length, Hlen | exact IH].
Qed.

Lemma succ_div_mod (m : nat) :
  (if Nat.eqb (m mod 312) 311
   then (S m / 312 = S (m / 312) /\ S m mod 312 = 0)
   else (S m / 312 = m / 312 /\ S m mod 312 = S (m mod 312)))%nat.
Proof.
  pose proof (Nat.div_mod_eq m 312) as Hm.
  pose proof (Nat.mod_upper_bound m 312 ltac:(lia)) as Hr.
  pose proof (Nat.div_mod_eq (S m) 312) as Hm'.
  pose proof (Nat.mod_upper_bound (S m) 312 ltac:(lia)) as Hr'.
  destruct (Nat.eqb_spec (m mod 312) 311) as [He | Hne].
  - apply (Nat.div_mod_unique 312); lia.
  - apply (Nat.div_mod_unique 312); lia.
Qed.

Lemma after_draws_S (c : mt19937_64) (n : nat) :
  after_draws (S n) c = snd (genrand64_int64 (after_draws n c)).
Proof. reflexivity. Qed.

Lemma batch_S (words : list Z) (k : nat) :
  Nat.iter (S k) textbook_untwist words
  = textbook_untwist (Nat.iter k textbook_untwist words).
Proof. generalize textbook_untwist. intros f. reflexivity. Qed.

(** The structure after [n + 1] calls. *)
Lemma after_draws_succ (c : mt19937_64) (n : nat) :
  MT.wf c -> 312 <= mti c ->
  after_draws (S n) c
  = Context (Nat.iter (n / 312 + 1) textbook_untwist (mt c))
            (Z.of_nat (n mod 312) + 1).
Proof.
  intros W Hm. induction n as [| n IH].
  - rewrite after_draws_S. change (after_draws 0 c) with c.
    rewrite genrand64_int64_step by (trivial; lia).
    destruct (Z.leb_spec 312 (mti c)); [| lia].
    change (0 / 312 + 1)%nat with 1%nat. change (0 mod 312)%nat with 0%nat.
    rewrite batch_S. cbn [snd Nat.iter nat_rect Z.of_nat].
    exact eq_refl.
  - rewrite after_draws_S, IH.
    pose proof (batch_length (mt c) (n / 312 + 1) W) as Hlen.
    pose proof (Nat.mod_upper_bound n 312 ltac:(lia)) as Hr.
    rewrite genrand64_int64_step by (unfold MT.wf; cbn [mt mti]; trivial; lia).
    cbn [mt mti].
    pose proof (succ_div_mod n) as Hs.
    destruct (Nat.eqb_spec (n mod 312) 311) as [He | Hne];
      destruct Hs as [Hq Hr'].
    + destruct (Z.leb_spec 312 (Z.of_nat (n mod 312) + 1)); [| lia].
      cbn [snd]. rewrite Hq, Hr'.
      replace (S (n / 312) + 1)%nat with (S (n / 312 + 1)) by lia.
      rewrite batch_S. exact eq_refl.
    + destruct (Z.leb_spec 312 (Z.of_nat (n mod 312) + 1)); [lia |].
      cbn [snd]. rewrite Hq, Hr'. f_equal. lia.
Qed.

Lemma nth_draw_value (c : mt19937_64) (n : nat) :
  MT.wf c -> 312 <= mti c ->
  nth_draw n c
  = tempered (Arr.get (Nat.iter (n / 312 + 1) textbook_untwist (mt c))
                      (Z.of_nat (n mod 312))).
Proof.
  intros W Hm. unfold nth_draw. destruct n as [| n].
  - change (after_draws 0 c) with c.
    rewrite genrand64_int64_step by (trivial; lia).
    destruct (Z.leb_spec 312 (mti c)); [| lia].
    change (0 / 312 + 1)%nat with 1%nat. change (0 mod 312)%nat with 0%nat.
    rewrite batch_S. cbn [fst Nat.iter nat_rect Z.of_nat].
    exact eq_refl.
  - rewrite after_draws_succ by assumption.
    pose proof (batch_length (mt c) (n / 312 + 1) W) as Hlen.
    pose proof (Nat.mod_upper_bound n 312 ltac:(lia)) as Hr.
    rewrite genrand64_int64_step by (unfold MT.wf; cbn [mt mti]; trivial; lia).
    cbn [mt mti].
    pose proof (succ_div_mod n) as Hs.
    destruct (Nat.eqb_spec (n mod 312) 311) as [He | Hne];
      destruct Hs as [Hq Hr'].
    + destruct (Z.leb_spec 312 (Z.of_nat (n mod 312) + 1)); [| lia].
      cbn [fst]. rewrite Hq, Hr'.
      replace (S (n / 312) + 1)%nat with (S (n / 312 + 1)) by lia.
      rewrite batch_S. exact eq_refl.
    + destruct (Z.leb_spec 312 (Z.of_nat (n mod 312) + 1)); [lia |].
      cbn [fst]. rewrite Hq, Hr'. do 2 f_equal. lia.
Qed.

(** X6: a call of [genrand64_int64] on a structure of 312 64-bit words
    with a non-negative index returns a 64-bit word and leaves a structure
    of 312 64-bit words whose index lies between 1 and 312. *)
Theorem genrand64_int64_keeps (c : mt19937_64) :
  MT.wf c -> words_u64 c -> 0 <= mti c ->
  is_u64 (fst (genrand64_int64 c)) /\
  MT.wf (snd (genrand64_int64 c)) /\
  words_u64 (snd (genrand64_int64 c)) /\
  1 <= mti (snd (genrand64_int64 c)) <= 312.
Proof.
  intros W Hu Hm. split; [apply genrand64_int64_u64; assumption |].
  rewrite genrand64_int64_step by assumption.
  destruct (Z.leb_spec 312 (mti c)) as [Hge | Hlt]; cbn [snd];
    unfold MT.wf, words_u64; cbn [mt mti].
  - split; [apply textbook_untwist_words, W |].
    split; [apply textbook_untwist_u64; assumption | lia].
  - split; [exact W | split; [exact Hu | lia]].
Qed.

Lemma genrand64_int64_keeps_witness :
  MT.wf (init_genrand64 blank 5489) /\
  words_u64 (init_genrand64 blank 5489) /\
  0 <= mti (init_genrand64 blank 5489) /\
  1 <= mti (snd (genrand64_int64 (init_genrand64 blank 5489))) <= 312.
Proof.
  assert (W : MT.wf (init_genrand64 blank 5489)) by (vm_compute; reflexivity).
  assert (Hu : words_u64 (init_genrand64 blank 5489))
    by (apply forallb_u64; vm_compute; reflexivity).
  assert (Hm : 0 <= mti (init_genrand64 blank 5489))
    by (vm_compute; discriminate).
  split; [exact W | split; [exact Hu | split; [exact Hm |]]].
  exact (proj2 (proj2 (proj2
           (genrand64_int64_keeps (init_genrand64 blank 5489) W Hu Hm)))).
Defined.

(** X7: from a structure whose index is at 312 or above, as both seeding
    functions leave it, call number [n] (counting from 0) returns the
    tempered word at position [n mod 312] of batch [n / 312 + 1], the
    batches being the successive images of the seeded array under the
    textbook recurrence; after that call the array is that batch and the
    index is [n mod 312 + 1].  So the array is regenerated at the calls
    numbered 0, 312, 624, ... and at no other. *)
Theorem genrand64_int64_stream (c : mt19937_64) (n : nat) :
  MT.wf c -> 312 <= mti c ->
  nth_draw n c
  = tempered (Arr.get (Nat.iter (n / 312 + 1) textbook_untwist (mt c))
                      (Z.of_nat (n mod 312))) /\
  mt (after_draws (S n) c) = Nat.iter (n / 312 + 1) textbook_untwist (mt c) /\
  mti (after_draws (S n) c) = Z.of_nat (n mod 312) + 1.
Proof.
  intros W Hm. split; [apply nth_draw_value; assumption |].
  rewrite after_draws_succ by assumption. split; reflexivity.
Qed.

Lemma genrand64_int64_stream_witness :
  MT.wf (init_genrand64 blank 5489) /\
  312 <= mti (init_genrand64 blank 5489) /\
  mti (after_draws 3 (init_genrand64 blank 5489)) = 3.
Proof.
  assert (W : MT.wf (init_genrand64 blank 5489)) by (vm_compute; reflexivity).
  assert (Hm : 312 <= mti (init_genrand64 blank 5489))
    by (vm_compute; discriminate).
  split; [exact W | split; [exact Hm |]].
  exact (proj2 (proj2
           (genrand64_int64_stream (init_genrand64 blank 5489) 2 W Hm))).
Defined.

End StreamFacts.

(** * Shift-and-xor steps lose nothing *)

Section XorShiftFacts.

(** [x ^ ((x >> k) & m)] determines [x]: the bits are recovered from the
    top down. *)
Lemma xorshr_inj (k m x y : Z) :
  0 < k -> is_u64 x -> is_u64 y ->
  Z.lxor x (Z.land (shr64 x k) m) = Z.lxor y (Z.land (shr64 y k) m) ->
  x = y.
Proof.
  intros Hk Hx Hy Heq.
  assert (Hbits : forall (d : nat) (i : Z),
            64 - Z.of_nat d <= i -> Z.testbit x i = Z.testbit y i).
  { induction d as [| d IH]; intros i Hi.
    - rewrite !u64_testbit_high by (trivial; lia). reflexivity.
    - destruct (Z.le_gt_cases (64 - Z.of_nat d) i) as [Hhi | Hlo];
        [apply IH, Hhi |].
      destruct (Z.lt_ge_cases i 0) as [Hneg | Hpos];
        [rewrite !Z.testbit_neg_r by lia; reflexivity |].
      pose proof (f_equal (fun z => Z.testbit z i) Heq) as Hb.
      cbv beta in Hb. unfold shr64 in Hb.
      rewrite !Z.lxor_spec, !Z.land_spec, !Z.shiftr_spec in Hb by lia.
      rewrite (IH (i + k)) in Hb by lia.
      destruct (Z.testbit x i), (Z.testbit y i), (Z.testbit y (i + k)),
        (Z.testbit m i); simpl in Hb; congruence. }
  apply Z.bits_inj'. intros n Hn. apply (Hbits 64%nat). lia.
Qed.

(** [x ^ ((x << k) & m)] determines [x]: the bits are recovered from the
    bottom up. *)
Lemma xorshl_inj (k m x y : Z) :
  0 < k ->
  Z.lxor x (Z.land (shl64 x k) m) = Z.lxor y (Z.land (shl64 y k) m) ->
  x = y.
Proof.
  intros Hk Heq.
  assert (Hbits : forall (d : nat) (i : Z),
            i < Z.of_nat d -> Z.testbit x i = Z.testbit y i).
  { induction d as [| d IH]; intros i Hi.
    - rewrite !Z.testbit_neg_r by lia. reflexivity.
    - destruct (Z.lt_ge_cases i (Z.of_nat d)) as [Hlo | Hhi];
        [apply IH, Hlo |].
      pose proof (f_equal (fun z => Z.testbit z i) Heq) as Hb.
      cbv beta in Hb. unfold shl64 in Hb.
      rewrite !Z.lxor_spec, !Z.land_spec, !wrap64_testbit in Hb by lia.
      rewrite !Z.shiftl_spec in Hb by lia.
      rewrite (IH (i - k)) in Hb by lia.
      destruct (Z.testbit x i), (Z.testbit y i), (Z.testbit y (i - k)),
        (Z.testbit m i), (i <? 64); simpl in Hb; congruence. }
  apply Z.bits_inj'. intros n Hn. apply (Hbits (S (Z.to_nat n))). lia.
Qed.

Lemma shl64_u64 (x k : Z) : is_u64 (shl64 x k).
Proof. apply wrap64_range. Qed.

Lemma tempered_inj (w w' : Z) :
  is_u64 w -> is_u64 w' -> tempered w = tempered w' -> w = w'.
Proof.
  intros Hw Hw'. unfold tempered. cbv zeta.
  set (a := Z.lxor w (Z.land (shr64 w 29) 0x5555555555555555)).
  set (a' := Z.lxor w' (Z.land (shr64 w' 29) 0x5555555555555555)).
  set (b := Z.lxor a (Z.land (shl64 a 17) 0x71D67FFFEDA60000)).
  set (b' := Z.lxor a' (Z.land (shl64 a' 17) 0x71D67FFFEDA60000)).
  set (d := Z.lxor b (Z.land (shl64 b 37) 0xFFF7EEE000000000)).
  set (d' := Z.lxor b' (Z.land (shl64 b' 37) 0xFFF7EEE000000000)).
  assert (Ha : is_u64 a)
    by (apply lxor_u64; [exact Hw | apply land_u64; [apply shr64_u64 |]]; trivial; lia).
  assert (Ha' : is_u64 a')
    by (apply lxor_u64; [exact Hw' | apply land_u64; [apply shr64_u64 |]]; trivial; lia).
  assert (Hb : is_u64 b)
    by (apply lxor_u64; [exact Ha | apply land_u64; [apply shl64_u64 | lia]]).
  assert (Hb' : is_u64 b')
    by (apply lxor_u64; [exact Ha' | apply land_u64; [apply shl64_u64 | lia]]).
  assert (Hd : is_u64 d)
    by (apply lxor_u64; [exact Hb | apply land_u64; [apply shl64_u64 | lia]]).
  assert (Hd' : is_u64 d')
    by (apply lxor_u64; [exact Hb' | apply land_u64; [apply shl64_u64 | lia]]).
  intros H4.
  rewrite <- (Z.land_m1_r (shr64 d 43)), <- (Z.land_m1_r (shr64 d' 43)) in H4.
  apply xorshr_inj in H4; [| lia | exact Hd | exact Hd'].
  apply xorshl_inj in H4; [| lia].
  apply xorshl_inj in H4; [| lia].
  apply xorshr_inj in H4; [exact H4 | lia | exact Hw | exact Hw'].
Qed.

(** X8: tempering is one-to-one on 64-bit words: two different array
    words never temper to the same value, so the value returned by
    [genrand64_int64] determines the array word it was made from. *)
Theorem tempered_injective (w w' : Z) :
  is_u64 w -> is_u64 w' -> w <> w' -> tempered w <> tempered w'.
Proof.
  intros Hw Hw' Hne Heq. apply Hne. exact (tempered_inj w w' Hw Hw' Heq).
Qed.

Lemma tempered_injective_witness :
  is_u64 0 /\ is_u64 1 /\ 0 <> 1 /\ tempered 0 <> tempered 1.
Proof.
  assert (H0 : is_u64 0) by (unfold is_u64, modulus; lia).
  assert (H1 : is_u64 1) by (unfold is_u64, modulus; lia).
  assert (Hne : 0 <> 1) by lia.
  split; [exact H0 | split; [exact H1 | split; [exact Hne |]]].
  exact (tempered_injective 0 1 H0 H1 Hne).
Defined.

(** X9: [genrand64_int63] returns the 64-bit draw shifted right by one:
    a value from 0 to 2^63 - 1, which the conversion to [long long] leaves
    as it is; the structure is left as [genrand64_int64] leaves it. *)
Theorem genrand64_int63_value (c : mt19937_64) :
  MT.wf c -> words_u64 c ->
  fst (genrand64_int63 c) = fst (genrand64_int64 c) / 2 /\
  0 <= fst (genrand64_int63 c) < 2 ^ 63 /\
  snd (genrand64_int63 c) = snd (genrand64_int64 c).
Proof.
  intros W Hu. pose proof (genrand64_int64_u64 c W Hu) as Hr.
  unfold genrand64_int63. destruct (genrand64_int64 c) as [r c'].
  cbn [fst snd] in Hr |- *.
  pose proof (shr64_bound r 1 Hr ltac:(lia)) as Hb.
  change (2 ^ (64 - 1)) with (2 ^ 63) in Hb.
  unfold to_i64. destruct (Z.ltb_spec (shr64 r 1) (2 ^ 63)); [| lia].
  split; [| split; [exact Hb | reflexivity]].
  unfold shr64. rewrite Z.shiftr_div_pow2 by lia. reflexivity.
Qed.

Lemma genrand64_int63_value_witness :
  MT.wf (init_genrand64 blank 5489) /\
  words_u64 (init_genrand64 blank 5489) /\
  0 <= fst (genrand64_int63 (init_genrand64 blank 5489)) < 2 ^ 63.
Proof.
  assert (W : MT.wf (init_genrand64 blank 5489)) by (vm_compute; reflexivity).
  assert (Hu : words_u64 (init_genrand64 blank 5489))
    by (apply forallb_u64; vm_compute; reflexivity).
  split; [exact W | split; [exact Hu |]].
  exact (proj1 (proj2 (genrand64_int63_value (init_genrand64 blank 5489) W Hu))).
Defined.

End XorShiftFacts.

(** * xoshiro256**, further *)

Section XoshiroMore.

Lemma rotl_u64 (x k : Z) : is_u64 x -> 0 <= k <= 64 -> is_u64 (rotl x k).
Proof.
  intros Hx Hk. unfold rotl.
  apply lor_u64; [apply wrap64_range | apply shr64_u64; [exact Hx | lia]].
Qed.

Lemma rotl_inj (x y k : Z) :
  is_u64 x -> is_u64 y -> 0 < k < 64 -> rotl x k = rotl y k -> x = y.
Proof.
  intros Hx Hy Hk Heq.
  rewrite <- (rotl_unrotl x k Hx Hk), <- (rotl_unrotl y k Hy Hk), Heq.
  reflexivity.
Qed.

(** Multiplication by an odd constant is one-to-one modulo 2^64. *)
Lemma mul64_inj (c x y : Z) :
  Z.gcd (2 ^ 64) c = 1 -> is_u64 x -> is_u64 y ->
  mul64 x c = mul64 y c -> x = y.
Proof.
  unfold mul64, wrap64, is_u64, modulus. intros Hc Hx Hy Heq.
  assert (Hdiv : (2 ^ 64 | c * (x - y))).
  { exists (x * c / 2 ^ 64 - y * c / 2 ^ 64).
    pose proof (Z.div_mod (x * c) (2 ^ 64)) as H1.
    pose proof (Z.div_mod (y * c) (2 ^ 64)) as H2.
    rewrite Heq in H1. lia. }
  apply Z.gauss in Hdiv; [| exact Hc].
  destruct Hdiv as [q Hq]. lia.
Qed.

Lemma wf_closed (a b c d : Z) :
  is_u64 a -> is_u64 b -> is_u64 c -> is_u64 d ->
  Xoshiro.wf (XState [a; b; c; d]).
Proof.
  intros Ha Hb Hc Hd. split; [reflexivity |].
  cbn [s]. repeat (constructor; [assumption |]). constructor.
Qed.

(** X10: [xoshiro_next] keeps the state well formed, four 64-bit words,
    and returns a 64-bit word. *)
Theorem xoshiro_next_keeps (state : xoshiro_state) :
  Xoshiro.wf state ->
  is_u64 (fst (xoshiro_next state)) /\ Xoshiro.wf (snd (xoshiro_next state)).
Proof.
  intros Hwf.
  pose proof (wf_words state 0 Hwf ltac:(lia)) as R0.
  pose proof (wf_words state 1 Hwf ltac:(lia)) as R1.
  pose proof (wf_words state 2 Hwf ltac:(lia)) as R2.
  pose proof (wf_words state 3 Hwf ltac:(lia)) as R3.
  rewrite (xoshiro_next_closed state (proj1 Hwf)). cbn [fst snd].
  split; [apply wrap64_range |].
  apply wf_closed.
  - apply lxor_u64; [exact R0 | apply lxor_u64; assumption].
  - apply lxor_u64; [exact R1 | apply lxor_u64; assumption].
  - apply lxor_u64; [apply lxor_u64; assumption | apply wrap64_range].
  - apply rotl_u64; [apply lxor_u64; assumption | lia].
Qed.

Lemma xoshiro_next_keeps_witness :
  Xoshiro.wf (XState [1; 2; 3; 4]) /\
  Xoshiro.wf (snd (xoshiro_next (XState [1; 2; 3; 4]))).
Proof.
  assert (Hwf : Xoshiro.wf (XState [1; 2; 3; 4])).
  { split; [reflexivity |].
    repeat constructor; unfold modulus; simpl; lia. }
  split; [exact Hwf |].
  exact (proj2 (xoshiro_next_keeps (XState [1; 2; 3; 4]) Hwf)).
Defined.

Lemma lxor_cancel_r (x y z : Z) : Z.lxor x z = Z.lxor y z -> x = y.
Proof.
  intros H. apply (f_equal (fun w => Z.lxor w z)) in H. cbv beta in H.
  rewrite !Z.lxor_assoc, !Z.lxor_nilpotent, !Z.lxor_0_r in H. exact H.
Qed.

Lemma lxor_cancel_l (x y z : Z) : Z.lxor z x = Z.lxor z y -> x = y.
Proof.
  intros H. rewrite !(Z.lxor_comm z) in H. exact (lxor_cancel_r x y z H).
Qed.

Lemma xoshiro_step_inj (s1 s2 : xoshiro_state) :
  Xoshiro.wf s1 -> Xoshiro.wf s2 ->
  snd (xoshiro_next s1) = snd (xoshiro_next s2) -> s1 = s2.
Proof.
  intros W1 W2 Heq.
  pose proof (wf_words s1 1 W1 ltac:(lia)) as Hb.
  pose proof (wf_words s1 3 W1 ltac:(lia)) as Hd.
  pose proof (wf_words s2 1 W2 ltac:(lia)) as Hb'.
  pose proof (wf_words s2 3 W2 ltac:(lia)) as Hd'.
  rewrite (xoshiro_next_closed s1 (proj1 W1)) in Heq.
  rewrite (xoshiro_next_closed s2 (proj1 W2)) in Heq. cbn [snd] in Heq.
  injection Heq as E0 E1 E2 E3.
  rewrite (four_words s1 (proj1 W1)), (four_words s2 (proj1 W2)).
  set (a := s_at s1 0) in *. set (b := s_at s1 1) in *.
  set (c := s_at s1 2) in *. set (d := s_at s1 3) in *.
  set (a' := s_at s2 0) in *. set (b' := s_at s2 1) in *.
  set (c' := s_at s2 2) in *. set (d' := s_at s2 3) in *.
  clearbody a b c d a' b' c' d'.
  apply rotl_inj in E3; [| apply lxor_u64; assumption
                          | apply lxor_u64; assumption | lia].
  rewrite E3 in E0. apply lxor_cancel_r in E0. subst a'.
  assert (Ebb : Z.lxor b (Z.land (shl64 b 17) (-1))
                = Z.lxor b' (Z.land (shl64 b' 17) (-1))).
  { rewrite !Z.land_m1_r.
    transitivity (Z.lxor (Z.lxor b (Z.lxor c a))
                         (Z.lxor (Z.lxor c a) (shl64 b 17))).
    - rewrite Z.lxor_assoc, <- (Z.lxor_assoc (Z.lxor c a)),
        Z.lxor_nilpotent, Z.lxor_0_l. reflexivity.
    - rewrite E1, E2.
      rewrite Z.lxor_assoc, <- (Z.lxor_assoc (Z.lxor c' a)),
        Z.lxor_nilpotent, Z.lxor_0_l. reflexivity. }
  apply xorshl_inj in Ebb; [| lia]. subst b'.
  apply lxor_cancel_l in E1. apply lxor_cancel_r in E1.
  apply lxor_cancel_r in E3. subst c' d'. reflexivity.
Qed.

(** X11: the state update of [xoshiro_next] is one-to-one: two different
    well-formed states never step to the same state. *)
Theorem xoshiro_next_injective (s1 s2 : xoshiro_state) :
  Xoshiro.wf s1 -> Xoshiro.wf s2 -> s1 <> s2 ->
  snd (xoshiro_next s1) <> snd (xoshiro_next s2).
Proof.
  intros W1 W2 Hne Heq. apply Hne. exact (xoshiro_step_inj s1 s2 W1 W2 Heq).
Qed.

Lemma xoshiro_next_injective_witness :
  Xoshiro.wf (XState [1; 2; 3; 4]) /\ Xoshiro.wf (XState [1; 2; 3; 5]) /\
  XState [1; 2; 3; 4] <> XState [1; 2; 3; 5] /\
  snd (xoshiro_next (XState [1; 2; 3; 4]))
  <> snd (xoshiro_next (XState [1; 2; 3; 5])).
Proof.
  assert (W1 : Xoshiro.wf (XState [1; 2; 3; 4])).
  { split; [reflexivity |].
    repeat constructor; unfold modulus; simpl; lia. }
  assert (W2 : Xoshiro.wf (XState [1; 2; 3; 5])).
  { split; [reflexivity |].
    repeat constructor; unfold modulus; simpl; lia. }
  assert (Hne : XState [1; 2; 3; 4] <> XState [1; 2; 3; 5])
    by (intros H; discriminate H).
  split; [exact W1 | split; [exact W2 | split; [exact Hne |]]].
  exact (xoshiro_next_injective _ _ W1 W2 Hne).
Defined.

(** X12: the value [xoshiro_next] returns is a one-to-one function of the
    word [s[1]] alone: states with the same [s[1]] return the same value,
    states with different [s[1]] return different values. *)
Theorem xoshiro_output_by_s1 (s1 s2 : xoshiro_state) :
  Xoshiro.wf s1 -> Xoshiro.wf s2 ->
  (fst (xoshiro_next s1) = fst (xoshiro_next s2) <-> s_at s1 1 = s_at s2 1).
Proof.
  intros W1 W2.
  pose proof (wf_words s1 1 W1 ltac:(lia)) as B1.
  pose proof (wf_words s2 1 W2 ltac:(lia)) as B2.
  rewrite (xoshiro_next_closed s1 (proj1 W1)).
  rewrite (xoshiro_next_closed s2 (proj1 W2)). cbn [fst].
  split; [| intros ->; reflexivity].
  intros Heq.
  apply mul64_inj in Heq;
    [| reflexivity | apply rotl_u64; [apply wrap64_range | lia]
     | apply rotl_u64; [apply wrap64_range | lia]].
  apply rotl_inj in Heq; [| apply wrap64_range | apply wrap64_range | lia].
  apply mul64_inj in Heq; [exact Heq | reflexivity | exact B1 | exact B2].
Qed.

Lemma xoshiro_output_by_s1_witness :
  Xoshiro.wf (XState [1; 2; 3; 4]) /\ Xoshiro.wf (XState [9; 2; 7; 5]) /\
  fst (xoshiro_next (XState [1; 2; 3; 4]))
  = fst (xoshiro_next (XState [9; 2; 7; 5])).
Proof.
  assert (W1 : Xoshiro.wf (XState [1; 2; 3; 4])).
  { split; [reflexivity |].
    repeat constructor; unfold modulus; simpl; lia. }
  assert (W2 : Xoshiro.wf (XState [9; 2; 7; 5])).
  { split; [reflexivity |].
    repeat constructor; unfold modulus; simpl; lia. }
  split; [exact W1 | split; [exact W2 |]].
  apply (xoshiro_output_by_s1 _ _ W1 W2). reflexivity.
Defined.

End XoshiroMore.

(** * The draws as doubles, further *)

Section RealMore.

Lemma finite_lt (m m' : positive) (e e' : Z) :
  e < e' \/ (e = e' /\ Zpos m < Zpos m') ->
  SFltb (S754_finite false m e) (S754_finite false m' e') = true.
Proof.
  unfold SFltb. intros [Hlt | [-> Hm]].
  - rewrite compare_lower_exp by exact Hlt. reflexivity.
  - rewrite compare_same_exp.
    rewrite (proj2 (Z.compare_lt_iff _ _) Hm). reflexivity.
Qed.

(** Two normalised mantissas [m = x * 2^a] and [m' = x' * 2^a'] with
    [x < x']: the smaller [x] has the larger shift, or the same shift and
    the smaller mantissa. *)
Lemma normalised_order (m m' : positive) (x x' a a' : Z) :
  Zpos (digits2_pos m) = 53 -> Zpos (digits2_pos m') = 53 ->
  0 <= a -> 0 <= a' -> 0 < x < x' ->
  Zpos m = x * 2 ^ a -> Zpos m' = x' * 2 ^ a' ->
  a' < a \/ (a' = a /\ Zpos m < Zpos m').
Proof.
  intros Hd Hd' Ha Ha' Hx Hm Hm'.
  pose proof (digits_bounds m) as [Dlo Dhi]. rewrite Hd in Dlo, Dhi.
  pose proof (digits_bounds m') as [Dlo' Dhi']. rewrite Hd' in Dlo', Dhi'.
  change (53 - 1) with 52 in *. change (2 ^ 53) with (2 * 2 ^ 52) in *.
  assert (Hp : 0 < 2 ^ a) by (apply Z.pow_pos_nonneg; lia).
  destruct (Z.lt_trichotomy a' a) as [Hlt | [Heq | Hgt]].
  - left. exact Hlt.
  - right. split; [exact Heq |]. subst a'. nia.
  - exfalso.
    replace a' with (a + (a' - a)) in Hm' by lia.
    rewrite Z.pow_add_r in Hm' by lia.
    assert (Hq : 2 <= 2 ^ (a' - a)).
    { change 2 with (2 ^ 1) at 1. apply Z.pow_le_mono_r; lia. }
    rewrite Z.mul_assoc in Hm'.
    assert (H1 : x * 2 ^ a < x' * 2 ^ a)
      by (apply Z.mul_lt_mono_pos_r; lia).
    assert (H2 : x' * 2 ^ a * 2 <= x' * 2 ^ a * 2 ^ (a' - a))
      by (apply Z.mul_le_mono_nonneg_l; lia).
    lia.
Qed.

(** Among the conversions of positive integers below 2^53 the order of
    the integers is the order of exponent and mantissa. *)
Lemma of_u64_order (n n' : Z) (m m' : positive) (e e' : Z) :
  0 < n < n' -> n' < 2 ^ 53 ->
  of_u64 n = S754_finite false m e -> of_u64 n' = S754_finite false m' e' ->
  Zpos (digits2_pos m) = 53 /\ Zpos (digits2_pos m') = 53 /\
  -52 <= e <= 0 /\ -52 <= e' <= 0 /\
  (e < e' \/ (e = e' /\ Zpos m < Zpos m')).
Proof.
  intros Hn Hn' E E'.
  destruct (of_u64_pos n) as (m0 & e0 & E0 & Hd & He & Hm & _); [lia |].
  destruct (of_u64_pos n') as (m1 & e1 & E1 & Hd' & He' & Hm' & _); [lia |].
  rewrite E0 in E. injection E as -> ->.
  rewrite E1 in E'. injection E' as -> ->.
  split; [exact Hd |]. split; [exact Hd' |].
  split; [exact He |]. split; [exact He' |].
  destruct (normalised_order m m' n n' (- e) (- e')) as [Hlt | [Heq Hlt]];
    trivial; try lia.
Qed.

Lemma real2_increasing (r r' : Z) :
  is_u64 r -> is_u64 r' -> shr64 r 11 < shr64 r' 11 ->
  SFltb (dmul (of_u64 (shr64 r 11)) (ddiv (dbl 1 0) (dbl 9007199254740992 0)))
        (dmul (of_u64 (shr64 r' 11)) (ddiv (dbl 1 0) (dbl 9007199254740992 0)))
  = true.
Proof.
  intros Hr Hr' Hlt. rewrite c2_value.
  pose proof (shr64_bound r 11 Hr ltac:(lia)) as Hn.
  pose proof (shr64_bound r' 11 Hr' ltac:(lia)) as Hn'.
  change (2 ^ (64 - 11)) with (2 ^ 53) in Hn, Hn'.
  destruct (of_u64_pos (shr64 r' 11)) as (m' & e' & E' & Hd' & He' & _);
    [lia |].
  destruct (Z.eq_dec (shr64 r 11) 0) as [Hz | Hnz].
  - rewrite Hz, E'. rewrite (mul_pow2 m' e' (-105) Hd') by lia. reflexivity.
  - destruct (of_u64_pos (shr64 r 11)) as (m & e & E & Hd & He & _); [lia |].
    destruct (of_u64_order (shr64 r 11) (shr64 r' 11) m m' e e'
                ltac:(lia) ltac:(lia) E E')
      as (_ & _ & _ & _ & Hord).
    rewrite E, E'.
    rewrite (mul_pow2 m e (-105) Hd), (mul_pow2 m' e' (-105) Hd') by lia.
    apply finite_lt. lia.
Qed.

(** X13: [genrand64_real2] is strictly increasing in the upper 53 bits of
    the draw: a draw with a larger [draw >> 11] gives a larger double, so
    the 2^53 values of [draw >> 11] give 2^53 different doubles. *)
Theorem genrand64_real2_increasing (c c' : mt19937_64) :
  MT.wf c -> words_u64 c -> MT.wf c' -> words_u64 c' ->
  shr64 (fst (genrand64_int64 c)) 11 < shr64 (fst (genrand64_int64 c')) 11 ->
  SFltb (fst (genrand64_real2 c)) (fst (genrand64_real2 c')) = true.
Proof.
  intros W Hu W' Hu'.
  pose proof (genrand64_int64_u64 c W Hu) as Hr.
  pose proof (genrand64_int64_u64 c' W' Hu') as Hr'.
  unfold genrand64_real2.
  destruct (genrand64_int64 c) as [r c1].
  destruct (genrand64_int64 c') as [r' c1'].
  cbn [fst] in *. intros Hlt. exact (real2_increasing r r' Hr Hr' Hlt).
Qed.

Lemma genrand64_real2_increasing_witness :
  MT.wf drawn_once /\ words_u64 drawn_once /\
  MT.wf (init_genrand64 blank 5489) /\
  words_u64 (init_genrand64 blank 5489) /\
  shr64 (fst (genrand64_int64 drawn_once)) 11
  < shr64 (fst (genrand64_int64 (init_genrand64 blank 5489))) 11 /\
  SFltb (fst (genrand64_real2 drawn_once))
        (fst (genrand64_real2 (init_genrand64 blank 5489))) = true.
Proof.
  assert (W : MT.wf drawn_once) by (vm_compute; reflexivity).
  assert (Hu : words_u64 drawn_once)
    by (apply forallb_u64; vm_compute; reflexivity).
  assert (W' : MT.wf (init_genrand64 blank 5489)) by (vm_compute; reflexivity).
  assert (Hu' : words_u64 (init_genrand64 blank 5489))
    by (apply forallb_u64; vm_compute; reflexivity).
  assert (Hlt : shr64 (fst (genrand64_int64 drawn_once)) 11
                < shr64 (fst (genrand64_int64 (init_genrand64 blank 5489))) 11)
    by (vm_compute; reflexivity).
  split; [exact W | split; [exact Hu | split; [exact W' | split; [exact Hu' |]]]].
  split; [exact Hlt |].
  exact (genrand64_real2_increasing drawn_once (init_genrand64 blank 5489)
           W Hu W' Hu' Hlt).
Defined.

(** The sum [(double)n + 0.5] for an integer [n] below 2^52 is exact: it
    is the normalised double of value [(2n + 1) / 2]. *)
Lemma add_half_value (n : Z) :
  0 <= n < 2 ^ 52 ->
  exists (m : positive) (e : Z),
    dadd (of_u64 n) (dbl 1 (-1)) = S754_finite false m e /\
    Zpos (digits2_pos m) = 53 /\ -53 <= e <= -1 /\
    Zpos m = (2 * n + 1) * 2 ^ (- 1 - e).
Proof.
  intros Hn. destruct (Z.eq_dec n 0) as [-> | Hnz].
  - exists 4503599627370496%positive, (-53).
    repeat split; try reflexivity; lia.
  - destruct (of_u64_pos n) as (mn & en & -> & Hdn & Hen & Hmn & Hlo & Hhi);
      [change (2 ^ 53) with (2 ^ 52 * 2); lia |].
    assert (Hneg : en <= -1).
    { destruct (Z.le_gt_cases en (-1)) as [? | Hgt]; [assumption |].
      assert (2 ^ 52 <= 2 ^ (52 + en)) by (apply Z.pow_le_mono_r; lia). lia. }
    rewrite dbl_half. unfold dadd, SFadd.
    replace (Z.min en (-53)) with (-53) by lia.
    unfold shl_align.
    change (-53 - -53) with 0. cbn [fst cond_Zopp].
    destruct (-53 - en) as [| k | k] eqn:Hk; try lia. cbn [fst].
    assert (Hsum : Zpos (Pos.iter xO mn k + 4503599627370496)
                   = (2 * n + 1) * 2 ^ 52).
    { rewrite Pos2Z.inj_add, iter_xO_pow, Hmn.
      replace (Zpos k) with (53 + en) by lia.
      rewrite <- Z.mul_assoc, <- Z.pow_add_r by lia.
      replace (- en + (53 + en)) with 53 by lia.
      change (2 ^ 53) with (2 * 2 ^ 52).
      change (Zpos 4503599627370496) with (2 ^ 52).
      ring. }
    change (Zpos (Pos.iter xO mn k) + Zpos 4503599627370496)
      with (Zpos (Pos.iter xO mn k + 4503599627370496)).
    set (psum := (Pos.iter xO mn k + 4503599627370496)%positive) in *.
    unfold binary_normalize, binary_round.
    assert (HD : Zpos (digits2_pos psum) = en + 106).
    { apply digits_unique. rewrite Hsum.
      replace (en + 106 - 1) with (52 + en + 1 + 52) by lia.
      replace (en + 106) with (53 + en + 1 + 52) by lia.
      rewrite !(Z.pow_add_r _ _ 52), !(Z.pow_add_r _ _ 1) by lia.
      change (2 ^ 1) with 2.
      assert (0 < 2 ^ 52) by reflexivity. nia. }
    rewrite HD. unfold fexp, emin, shl_align.
    replace (Z.max (en + 106 + -53 - 53) (3 - 1024 - 53) - -53) with (Zpos k)
      by lia.
    assert (Hbit : Z.testbit (Zpos psum) (Zpos k - 1) = false).
    { rewrite Hsum. apply Z.mul_pow2_bits_low. lia. }
    destruct (round_shift false psum (-53) k)
      as (m3 & e3 & -> & [(-> & Hm3 & Hval) | (_ & _ & Hcontra)]); try lia;
      [| congruence].
    exists m3, (-53 + Zpos k). split; [reflexivity |].
    split; [apply digits_unique; exact Hm3 |]. split; [lia |].
    rewrite (Hval Hbit), Hsum, Z.shiftr_div_pow2 by lia.
    replace 52 with ((- 1 - (-53 + Zpos k)) + Zpos k) at 1 by lia.
    rewrite Z.pow_add_r, Z.mul_assoc by lia.
    apply Z.div_mul. apply Z.pow_nonzero; lia.
Qed.

Lemma real3_increasing (r r' : Z) :
  is_u64 r -> is_u64 r' -> shr64 r 12 < shr64 r' 12 ->
  SFltb (dmul (dadd (of_u64 (shr64 r 12)) (dbl 1 (-1)))
              (ddiv (dbl 1 0) (dbl 4503599627370496 0)))
        (dmul (dadd (of_u64 (shr64 r' 12)) (dbl 1 (-1)))
              (ddiv (dbl 1 0) (dbl 4503599627370496 0)))
  = true.
Proof.
  intros Hr Hr' Hlt. rewrite c3_value.
  pose proof (shr64_bound r 12 Hr ltac:(lia)) as Hn.
  pose proof (shr64_bound r' 12 Hr' ltac:(lia)) as Hn'.
  change (2 ^ (64 - 12)) with (2 ^ 52) in Hn, Hn'.
  destruct (add_half_value (shr64 r 12) Hn) as (m & e & -> & Hd & He & Hm).
  destruct (add_half_value (shr64 r' 12) Hn')
    as (m' & e' & -> & Hd' & He' & Hm').
  rewrite (mul_pow2 m e (-104) Hd), (mul_pow2 m' e' (-104) Hd') by lia.
  apply finite_lt.
  destruct (normalised_order m m' (2 * shr64 r 12 + 1) (2 * shr64 r' 12 + 1)
              (- 1 - e) (- 1 - e')) as [Ha | [Ha Hmm]]; trivial; lia.
Qed.

(** X14: [genrand64_real3] is strictly increasing in the upper 52 bits of
    the draw: a draw with a larger [draw >> 12] gives a larger double, so
    the 2^52 values of [draw >> 12] give 2^52 different doubles. *)
Theorem genrand64_real3_increasing (c c' : mt19937_64) :
  MT.wf c -> words_u64 c -> MT.wf c' -> words_u64 c' ->
  shr64 (fst (genrand64_int64 c)) 12 < shr64 (fst (genrand64_int64 c')) 12 ->
  SFltb (fst (genrand64_real3 c)) (fst (genrand64_real3 c')) = true.
Proof.
  intros W Hu W' Hu'.
  pose proof (genrand64_int64_u64 c W Hu) as Hr.
  pose proof (genrand64_int64_u64 c' W' Hu') as Hr'.
  unfold genrand64_real3.
  destruct (genrand64_int64 c) as [r c1].
  destruct (genrand64_int64 c') as [r' c1'].
  cbn [fst] in *. intros Hlt. exact (real3_increasing r r' Hr Hr' Hlt).
Qed.

Lemma genrand64_real3_increasing_witness :
  MT.wf drawn_once /\ words_u64 drawn_once /\
  MT.wf (init_genrand64 blank 5489) /\
  words_u64 (init_genrand64 blank 5489) /\
  shr64 (fst (genrand64_int64 drawn_once)) 12
  < shr64 (fst (genrand64_int64 (init_genrand64 blank 5489))) 12 /\
  SFltb (fst (genrand64_real3 drawn_once))
        (fst (genrand64_real3 (init_genrand64 blank 5489))) = true.
Proof.
  assert (W : MT.wf drawn_once) by (vm_compute; reflexivity).
  assert (Hu : words_u64 drawn_once)
    by (apply forallb_u64; vm_compute; reflexivity).
  assert (W' : MT.wf (init_genrand64 blank 5489)) by (vm_compute; reflexivity).
  assert (Hu' : words_u64 (init_genrand64 blank 5489))
    by (apply forallb_u64; vm_compute; reflexivity).
  assert (Hlt : shr64 (fst (genrand64_int64 drawn_once)) 12
                < shr64 (fst (genrand64_int64 (init_genrand64 blank 5489))) 12)
    by (vm_compute; reflexivity).
  split; [exact W | split; [exact Hu | split; [exact W' | split; [exact Hu' |]]]].
  split; [exact Hlt |].
  exact (genrand64_real3_increasing drawn_once (init_genrand64 blank 5489)
           W Hu W' Hu' Hlt).
Defined.

Lemma two53_value :
  dbl 9007199254740992 0 = S754_finite false 4503599627370496 1.
Proof. reflexivity. Qed.

Lemma real2_scaled_back (r : Z) :
  is_u64 r ->
  dmul (dmul (of_u64 (shr64 r 11)) (ddiv (dbl 1 0) (dbl 9007199254740992 0)))
       (dbl 9007199254740992 0)
  = of_u64 (shr64 r 11).
Proof.
  intros Hr. rewrite c2_value, two53_value.
  pose proof (shr64_bound r 11 Hr ltac:(lia)) as Hn.
  change (2 ^ (64 - 11)) with (2 ^ 53) in Hn.
  destruct (Z.eq_dec (shr64 r 11) 0) as [-> | Hnz]; [reflexivity |].
  destruct (of_u64_pos (shr64 r 11)) as (m & e & -> & Hd & He & _); [lia |].
  rewrite (mul_pow2 m e (-105) Hd) by lia.
  rewrite (mul_pow2 m (e + -105 + 52) 1 Hd) by lia.
  f_equal. lia.
Qed.

(** X15: [genrand64_real2] is exact: multiplying its result by
    [9007199254740992.0] gives back [draw >> 11] converted to [double], so
    the result is [draw >> 11] divided by 2^53 with no rounding. *)
Theorem genrand64_real2_exact (c : mt19937_64) :
  MT.wf c -> words_u64 c ->
  dmul (fst (genrand64_real2 c)) (dbl 9007199254740992 0)
  = of_u64 (shr64 (fst (genrand64_int64 c)) 11).
Proof.
  intros W Hu. pose proof (genrand64_int64_u64 c W Hu) as Hr.
  unfold genrand64_real2. destruct (genrand64_int64 c) as [r c1].
  cbn [fst] in *. exact (real2_scaled_back r Hr).
Qed.

Lemma genrand64_real2_exact_witness :
  MT.wf (init_genrand64 blank 5489) /\
  words_u64 (init_genrand64 blank 5489) /\
  dmul (fst (genrand64_real2 (init_genrand64 blank 5489)))
       (dbl 9007199254740992 0)
  = of_u64 (shr64 (fst (genrand64_int64 (init_genrand64 blank 5489))) 11).
Proof.
  assert (W : MT.wf (init_genrand64 blank 5489)) by (vm_compute; reflexivity).
  assert (Hu : words_u64 (init_genrand64 blank 5489))
    by (apply forallb_u64; vm_compute; reflexivity).
  split; [exact W | split; [exact Hu |]].
  exact (genrand64_real2_exact (init_genrand64 blank 5489) W Hu).
Defined.

End RealMore.
